(** * React live search autocomplete: the search hook and the dropdown

    A shallow embedding of the [useSearch] hook (reducer, debounce timer,
    fetch life cycle), of the handlers of [App] and [SearchInput], and of
    the keyboard handler of [SearchResults].

    - JavaScript strings are sequences of UTF-16 code units ([list N]).
    - The reducer is a pure function, as in the source.
    - The hook is modelled by explicit state passing over a record holding
      the reducer state, the [debounceTimer] ref, and the part of the
      JavaScript runtime the hook talks to: the table of pending timeouts,
      a clock, and the promises of [fetchFn] that have not settled yet.
    - The component is a step function over the events the rendered
      elements can receive. *)

From Stdlib Require Import Ascii String.
From Stdlib Require Import List NArith ZArith Arith Bool Lia.
Import ListNotations.

(* ------------------------------------------------------------------ *)
(** ** JavaScript strings and [String.prototype.trim] *)

Definition jsstring := list N.

(** ECMAScript WhiteSpace and LineTerminator code points, the ones
    [trim] strips. *)
Definition isWhiteSpace (c : N) : bool :=
  existsb (N.eqb c)
    [ 9; 10; 11; 12; 13; 32; 160; 5760;
      8192; 8193; 8194; 8195; 8196; 8197; 8198; 8199; 8200; 8201; 8202;
      8232; 8233; 8239; 8287; 12288; 65279 ]%N.

Fixpoint trimStart (s : jsstring) : jsstring :=
  match s with
  | [] => []
  | c :: r => if isWhiteSpace c then trimStart r else s
  end.

Definition trimEnd (s : jsstring) : jsstring := rev (trimStart (rev s)).

Definition trim (s : jsstring) : jsstring := trimEnd (trimStart s).

(** Truthiness of a string: [!query] is true exactly for the empty string. *)
Definition truthy (s : jsstring) : bool :=
  match s with [] => false | _ :: _ => true end.

Definition whitespaceOnly (s : jsstring) : bool := forallb isWhiteSpace s.

(* ------------------------------------------------------------------ *)
(** ** State shape and reducer (useSearch.js, part 1) *)

(** The four values of [status]: 'idle', 'loading', 'success', 'error'. *)
Inductive Status := Idle | Loading | Success | Error.

Record Result := mkResult {
  id : jsstring;
  title : jsstring;
  author : jsstring;
  year : jsstring;
  coverUrl : option jsstring
}.

Record SearchState := mkSearchState {
  status : Status;
  query : jsstring;
  results : list Result;
  error : option jsstring
}.

Definition initialState : SearchState :=
  {| status := Idle; query := []; results := []; error := None |}.

Inductive Action :=
| SET_QUERY (payload : jsstring)
| FETCH_START
| FETCH_SUCCESS (payload : list Result)
| FETCH_ERROR (payload : jsstring)
| CLEAR.

Definition searchReducer (state : SearchState) (action : Action) : SearchState :=
  match action with
  | SET_QUERY payload =>
      {| status := status state; query := payload;
         results := results state; error := error state |}
  | FETCH_START =>
      {| status := Loading; query := query state;
         results := results state; error := None |}
  | FETCH_SUCCESS payload =>
      {| status := Success; query := query state;
         results := payload; error := error state |}
  | FETCH_ERROR payload =>
      {| status := Error; query := query state;
         results := []; error := Some payload |}
  | CLEAR => initialState
  end.

(* ------------------------------------------------------------------ *)
(** ** The hook and the runtime around it (useSearch.js, part 2) *)

(** A pending timeout of the runtime: its handle, the instant it is due,
    and the [query] its callback closed over. *)
Record Timeout := mkTimeout {
  handle : nat;
  due : nat;
  captured : jsstring
}.

(** How a promise returned by [fetchFn] settles. *)
Inductive Outcome :=
| Fulfilled (payload : list Result)
| Rejected (message : jsstring).

Record Hook := mkHook {
  state : SearchState;
  debounceTimer : option nat;          (* debounceTimer.current *)
  timeouts : list Timeout;             (* pending timeouts, oldest first *)
  nextHandle : nat;
  clock : nat;
  inflight : list (nat * jsstring);    (* fetches awaiting settlement *)
  nextFetch : nat;
  fetchCalls : list jsstring           (* arguments of fetchFn, oldest first *)
}.

Definition mount : Hook :=
  {| state := initialState; debounceTimer := None; timeouts := [];
     nextHandle := 1; clock := 0; inflight := []; nextFetch := 0;
     fetchCalls := [] |}.

Definition dispatch (a : Action) (h : Hook) : Hook :=
  mkHook (searchReducer (state h) a) (debounceTimer h) (timeouts h)
         (nextHandle h) (clock h) (inflight h) (nextFetch h) (fetchCalls h).

(** [clearTimeout(id)]: drops the timeout with that handle, if it is still
    pending; [clearTimeout(null)] does nothing. *)
Definition clearTimeout (id : option nat) (h : Hook) : Hook :=
  match id with
  | None => h
  | Some i =>
      mkHook (state h) (debounceTimer h)
             (filter (fun t => negb (handle t =? i)) (timeouts h))
             (nextHandle h) (clock h) (inflight h) (nextFetch h) (fetchCalls h)
  end.

(** [debounceTimer.current = setTimeout(callback, delay)], the callback
    closing over [q]. *)
Definition setDebounce (q : jsstring) (delay : nat) (h : Hook) : Hook :=
  mkHook (state h) (Some (nextHandle h))
         (timeouts h ++ [mkTimeout (nextHandle h) (clock h + delay) q])
         (S (nextHandle h)) (clock h) (inflight h) (nextFetch h) (fetchCalls h).

(** [fetchFn(q)] is called: one more call on record, one more promise
    awaited. *)
Definition callFetch (q : jsstring) (h : Hook) : Hook :=
  mkHook (state h) (debounceTimer h) (timeouts h) (nextHandle h) (clock h)
         (inflight h ++ [(nextFetch h, q)]) (S (nextFetch h))
         (fetchCalls h ++ [q]).

Section UseSearch.

Variable delay : nat.

Definition search (rawQuery : jsstring) (h : Hook) : Hook :=
  let query := trim rawQuery in
  let h := dispatch (SET_QUERY rawQuery) h in
  if negb (truthy query) then
    dispatch CLEAR (clearTimeout (debounceTimer h) h)
  else
    setDebounce query delay (clearTimeout (debounceTimer h) h).

Definition clear (h : Hook) : Hook :=
  dispatch CLEAR (clearTimeout (debounceTimer h) h).

End UseSearch.

(** The body of the timeout callback up to its [await]. *)
Definition onTimeout (h : Hook) (t : Timeout) : Hook :=
  callFetch (captured t) (dispatch FETCH_START h).

Definition isDue (now : nat) (t : Timeout) : bool := due t <=? now.

(** [dt] milliseconds pass: the timeouts that are due leave the table and
    their callbacks run, oldest first (all timeouts of one hook have the
    same delay, so that is the order of their due instants). *)
Definition elapse (dt : nat) (h : Hook) : Hook :=
  let now := clock h + dt in
  fold_left onTimeout (filter (isDue now) (timeouts h))
    (mkHook (state h) (debounceTimer h)
            (filter (fun t => negb (isDue now t)) (timeouts h))
            (nextHandle h) now (inflight h) (nextFetch h) (fetchCalls h)).

Definition awaited (f : nat) (h : Hook) : bool :=
  existsb (fun p => fst p =? f) (inflight h).

(** The action dispatched after [await fetchFn(query)]: the [try] branch on
    fulfilment, the [catch] branch ([err.message]) on rejection. *)
Definition settlement (o : Outcome) : Action :=
  match o with
  | Fulfilled payload => FETCH_SUCCESS payload
  | Rejected message => FETCH_ERROR message
  end.

(** A promise of [fetchFn] settles and the callback resumes. Nothing is
    checked before the dispatch. A promise settles once: a fetch that is
    not awaited any more has no continuation left. *)
Definition settle (f : nat) (o : Outcome) (h : Hook) : Hook :=
  if awaited f h then
    dispatch (settlement o)
      (mkHook (state h) (debounceTimer h) (timeouts h) (nextHandle h) (clock h)
              (filter (fun p => negb (fst p =? f)) (inflight h))
              (nextFetch h) (fetchCalls h))
  else h.

(* ------------------------------------------------------------------ *)
(** ** The component (App.jsx, SearchInput.jsx, SearchResults.jsx) *)

Record App := mkApp {
  hook : Hook;           (* useSearch({ fetchFn: searchBooks, delay: 400 }) *)
  isOpen : bool;
  activeIndex : Z
}.

Definition appDelay : nat := 400.

Definition initialApp : App :=
  {| hook := mount; isOpen := false; activeIndex := -1 |}.

Definition handleChange (value : jsstring) (a : App) : App :=
  mkApp (search appDelay value (hook a)) true (-1).

Definition handleClear (a : App) : App :=
  mkApp (clear (hook a)) false (-1).

Definition handleArrowDown (a : App) : App :=
  if 0 <? length (results (state (hook a))) then
    mkApp (hook a) (isOpen a) 0
  else a.

Definition handleSelect (result : Result) (a : App) : App :=
  mkApp (search appDelay (title result) (hook a)) false (-1).

Definition handleClickOutside (inside : bool) (a : App) : App :=
  if negb inside then mkApp (hook a) false (-1) else a.

Definition showDropdown (a : App) : bool :=
  isOpen a && (0 <? length (trim (query (state (hook a))))).

(** What App renders below the input. *)
Inductive Panel :=
| Blank                        (* the container alone *)
| Searching
| FetchFailed
| NoResults (q : jsstring)
| ResultList (rs : list Result) (q : jsstring) (active : Z).

Definition dropdown (a : App) : option Panel :=
  if showDropdown a then
    let s := state (hook a) in
    Some (match status s with
          | Loading => Searching
          | Error => FetchFailed
          | Success =>
              if length (results s) =? 0 then NoResults (query s)
              else ResultList (results s) (query s) (activeIndex a)
          | Idle => Blank
          end)
  else None.

Definition listRendered (a : App) : bool :=
  match dropdown a with
  | Some (ResultList _ _ _) => true
  | _ => false
  end.

(** The clear button of SearchInput: [!isLoading && value]. *)
Definition clearButtonRendered (a : App) : bool :=
  negb (match status (state (hook a)) with Loading => true | _ => false end)
  && truthy (query (state (hook a))).

Inductive Key := ArrowDown | ArrowUp | Enter | Escape | OtherKey.

(** SearchInput.handleKeyDown, with [onClear] and [onArrowDown] bound as App
    binds them. *)
Definition inputKeyDown (k : Key) (a : App) : App :=
  match k with
  | Escape => handleClear a
  | ArrowDown => handleArrowDown a
  | _ => a
  end.

(** The updater functions SearchResults passes to [setActiveIndex]. *)
Definition onDownInList (rs : list Result) (prev : Z) : Z :=
  Z.min (prev + 1) (Z.of_nat (length rs) - 1).

Definition onUpInList (prev : Z) : Z := Z.max (prev - 1) 0.

(** SearchResults.handleKeyDown, with [onSelect] and [onClose] bound as App
    binds them ([onClose={handleClear}]). *)
Definition itemKeyDown (k : Key) (index : nat) (a : App) : App :=
  let rs := results (state (hook a)) in
  match k with
  | ArrowDown => mkApp (hook a) (isOpen a) (onDownInList rs (activeIndex a))
  | ArrowUp => mkApp (hook a) (isOpen a) (onUpInList (activeIndex a))
  | Enter =>
      match nth_error rs index with
      | Some r => handleSelect r a
      | None => a
      end
  | Escape => handleClear a
  | OtherKey => a
  end.

Definition itemClick (index : nat) (a : App) : App :=
  match nth_error (results (state (hook a))) index with
  | Some r => handleSelect r a
  | None => a
  end.

(** Everything that can happen to a mounted App. Events of elements that
    are not rendered cannot occur; [step] ignores them. *)
Inductive Event :=
| Change (value : jsstring)              (* input onChange *)
| InputKeyDown (k : Key)                 (* input onKeyDown *)
| ClearClick                             (* clear button onClick *)
| ItemClick (index : nat)                (* li onClick *)
| ItemKeyDown (k : Key) (index : nat)    (* li onKeyDown *)
| MouseDown (inside : bool)              (* document mousedown *)
| Elapse (dt : nat)                      (* time passes *)
| Settle (fetch : nat) (o : Outcome).    (* a fetchFn promise settles *)

Definition step (a : App) (e : Event) : App :=
  match e with
  | Change value => handleChange value a
  | InputKeyDown k => inputKeyDown k a
  | ClearClick => if clearButtonRendered a then handleClear a else a
  | ItemClick index => if listRendered a then itemClick index a else a
  | ItemKeyDown k index => if listRendered a then itemKeyDown k index a else a
  | MouseDown inside => handleClickOutside inside a
  | Elapse dt => mkApp (elapse dt (hook a)) (isOpen a) (activeIndex a)
  | Settle f o => mkApp (settle f o (hook a)) (isOpen a) (activeIndex a)
  end.

Definition run (a : App) (es : list Event) : App := fold_left step es a.

Definition reachable (a : App) : Prop := exists es, a = run initialApp es.

(** The same for the hook alone, used by any component. *)
Inductive HookEvent :=
| HSearch (rawQuery : jsstring)
| HClear
| HElapse (dt : nat)
| HSettle (fetch : nat) (o : Outcome).

Section HookRuns.

Variable delay : nat.

Definition hstep (h : Hook) (e : HookEvent) : Hook :=
  match e with
  | HSearch rawQuery => search delay rawQuery h
  | HClear => clear h
  | HElapse dt => elapse dt h
  | HSettle f o => settle f o h
  end.

Definition hrun (h : Hook) (es : list HookEvent) : Hook := fold_left hstep es h.

Definition hreachable (h : Hook) : Prop := exists es, h = hrun mount es.

End HookRuns.

(** Reading ASCII text as a JavaScript string, for the examples. *)
Definition js (s : string) : jsstring :=
  map (fun c => N.of_nat (nat_of_ascii c)) (list_ascii_of_string s).

Arguments js s%_string.

(* ------------------------------------------------------------------ *)
(** ** Predicates used in the statements *)

(** At most one timeout is pending, and it is the one the ref holds. *)
Definition timerInv (h : Hook) : Prop :=
  match timeouts h with
  | [] => True
  | [t] => debounceTimer h = Some (handle t)
  | _ :: _ :: _ => False
  end.

(** What the reducer state satisfies whatever the order of events. *)
Definition stateInv (s : SearchState) : Prop :=
  (results s <> [] -> status s = Success \/ status s = Loading) /\
  (error s <> None -> status s = Error \/ status s = Success).

(** A query as [fetchFn] expects it. *)
Definition trimmedQuery (q : jsstring) : Prop :=
  trim q = q /\ q <> [] /\ whitespaceOnly q = false.

Definition lastIndex (a : App) : Z :=
  (Z.of_nat (length (results (state (hook a)))) - 1)%Z.

Definition inRange (a : App) : Prop := (-1 <= activeIndex a <= lastIndex a)%Z.

(** Events that come from the user, as opposed to the timer and the
    network. *)
Definition isUserEvent (e : Event) : bool :=
  match e with
  | Elapse _ | Settle _ _ => false
  | _ => true
  end.


(** A burst of submissions: [first], then each [(gap, raw)] of [rest] is
    submitted [gap] milliseconds after the one before it. *)
Definition burstTail (rest : list (nat * jsstring)) : list HookEvent :=
  flat_map (fun p => [HElapse (fst p); HSearch (snd p)]) rest.

Definition burst (first : jsstring) (rest : list (nat * jsstring)) : list HookEvent :=
  HSearch first :: burstTail rest.

Definition lastSubmitted (first : jsstring) (rest : list (nat * jsstring)) : jsstring :=
  last (map snd rest) first.

Definition withinWindow (delay : nat) (p : nat * jsstring) : Prop :=
  fst p < delay /\ whitespaceOnly (snd p) = false.

(** [q] is the trimmed form of a text with something in it that was
    submitted in [es]. *)
Definition submitted (es : list HookEvent) (q : jsstring) : Prop :=
  exists rawQuery,
    In (HSearch rawQuery) es /\ whitespaceOnly rawQuery = false /\ q = trim rawQuery.

(** The Escape key, on whichever element has the focus. *)
Definition onEscape (a : App) : App := step a (InputKeyDown Escape).

(** Sample records for the examples. *)
Definition bookA : Result := mkResult (js "/works/A") (js "Emma") (js "Austen") (js "1815") None.
Definition bookB : Result := mkResult (js "/works/B") (js "Ulysses") (js "Joyce") (js "1922") None.
Definition bookC : Result := mkResult (js "/works/C") (js "Dracula") (js "Stoker") (js "1897") None.

(* ------------------------------------------------------------------ *)
(** ** Further definitions: the rest of the hook and of the component *)


(** What the query field should read after an event, as far as the user's
    own actions go. *)
Definition queryAfter (q : jsstring) (e : HookEvent) : jsstring :=
  match e with
  | HSearch rawQuery => if whitespaceOnly rawQuery then [] else rawQuery
  | HClear => []
  | HElapse _ | HSettle _ _ => q
  end.

Definition typedQuery (es : list HookEvent) : jsstring := fold_left queryAfter es [].

(** The number of submissions with text in them. *)
Definition textSubmissions (es : list HookEvent) : nat :=
  length (filter (fun e => match e with
                           | HSearch rawQuery => negb (whitespaceOnly rawQuery)
                           | _ => false
                           end) es).

Definition isChange (e : Event) : bool :=
  match e with Change _ => true | _ => false end.

(* ------------------------------------------------------------------ *)
(** ** The data source: [searchBooks] *)

(** What the Open Library answers. A document carries the fields the
    request asks for; [author_name], [first_publish_year] and [cover_i]
    may be missing. Numbers are the integers the service sends. *)
Module OpenLibrary.

Record Doc := mkDoc {
  key : jsstring;
  title : jsstring;
  author_name : option (list jsstring);
  first_publish_year : option Z;
  cover_i : option Z
}.

Record Response := mkResponse {
  ok : bool;
  status : Z;
  statusText : jsstring;
  docs : list Doc            (* the docs of response.json() *)
}.

End OpenLibrary.

Section SearchBooks.

(** A number turned into text, as a template literal and the rendering of
    [{result.year}] do. *)
Variable numberToString : Z -> jsstring.

(** The callback of [data.docs.map]. [?.[0] ?? d] falls back to [d] for a
    missing or empty array, [?? d] for a missing number only, and the
    conditional on [cover_i] for a missing number and for 0. The year is
    kept as the text the list shows for it. *)
Definition normalize (book : OpenLibrary.Doc) : Result :=
  {| id := OpenLibrary.key book;
     title := OpenLibrary.title book;
     author := match OpenLibrary.author_name book with
               | Some (first :: _) => first
               | Some [] | None => js "Unknown Author"
               end;
     year := match OpenLibrary.first_publish_year book with
             | Some y => numberToString y
             | None => [8212%N]
             end;
     coverUrl := match OpenLibrary.cover_i book with
                 | Some c =>
                     if (c =? 0)%Z then None
                     else Some (js "https://covers.openlibrary.org/b/id/"
                                ++ numberToString c ++ js "-S.jpg")
                 | None => None
                 end |}.

(** [searchBooks] from the response on: it throws on a response that is
    not ok and normalizes the documents otherwise. *)
Definition searchBooks (response : OpenLibrary.Response) : Outcome :=
  if negb (OpenLibrary.ok response) then
    Rejected (js "API Error: " ++ numberToString (OpenLibrary.status response)
              ++ js " " ++ OpenLibrary.statusText response)
  else Fulfilled (map normalize (OpenLibrary.docs response)).

End SearchBooks.

(* ------------------------------------------------------------------ *)
(** ** HighlightMatch *)

(** The class [[.*+?^${}()|[\]\\]] of the escaping step. *)
Definition isSyntaxCharacter (c : N) : bool :=
  existsb (N.eqb c) [ 46; 42; 43; 63; 94; 36; 123; 125; 40; 41; 124; 91; 93; 92 ]%N.

(** [query.replace(/[.*+?^${}()|[\]\\]/g, '\\$&')]: a backslash before each
    character of the class. *)
Definition escapeRegExp (query : jsstring) : jsstring :=
  flat_map (fun c => if isSyntaxCharacter c then [92%N; c] else [c]) query.

(** Reading a pattern that consists of plain characters and of escaped
    syntax characters: the text it matches literally. Any other pattern
    is outside this reader. *)
Fixpoint literalOf (pattern : jsstring) : option jsstring :=
  match pattern with
  | [] => Some []
  | c :: rest =>
      if (c =? 92)%N then
        match rest with
        | d :: rest' =>
            if isSyntaxCharacter d then option_map (cons d) (literalOf rest')
            else None
        | [] => None
        end
      else if isSyntaxCharacter c then None
      else option_map (cons c) (literalOf rest)
  end.

Section Highlight.

(** The canonicalization of a code unit under the [i] flag. *)
Variable canonicalize : N -> N.

(** Does the literal match at the start of [s]? *)
Fixpoint matchesAt (literal s : jsstring) : bool :=
  match literal, s with
  | [], _ => true
  | _ :: _, [] => false
  | p :: literal', c :: s' =>
      (canonicalize p =? canonicalize c)%N && matchesAt literal' s'
  end.

(** The offset of the first match in [s], if there is one. *)
Fixpoint searchFrom (literal s : jsstring) : option nat :=
  if matchesAt literal s then Some 0
  else match s with
       | [] => None
       | _ :: s' => option_map S (searchFrom literal s')
       end.

(** [text.split(regex)] for the regex [(literal)]: the loop walks through
    the text; [seg] is the text since the end of the last match. Where
    the literal matches, the segment and then the captured match are
    pushed and the walk resumes behind the match ([skip] counts the
    code units of the match still to pass). At the end the last segment
    is pushed. *)
Fixpoint splitWalk (literal : jsstring) (skip : nat) (seg s : jsstring)
  : list jsstring :=
  match s with
  | [] => [seg]
  | c :: s' =>
      match skip with
      | S k => splitWalk literal k seg s'
      | 0 =>
          if matchesAt literal s then
            seg :: firstn (length literal) s
                :: splitWalk literal (length literal - 1) [] s'
          else splitWalk literal 0 (seg ++ [c]) s'
      end
  end.

Definition split (literal text : jsstring) : list jsstring :=
  splitWalk literal 0 [] text.

(** [regex.test(segment)] on the global regex: the search starts at
    [lastIndex]; a match moves [lastIndex] behind it, a failure sets it
    back to 0. The result comes with the new [lastIndex]. *)
Definition test (literal : jsstring) (lastIndex : nat) (segment : jsstring)
  : bool * nat :=
  if length segment <? lastIndex then (false, 0)
  else match searchFrom literal (skipn lastIndex segment) with
       | Some offset => (true, lastIndex + offset + length literal)
       | None => (false, 0)
       end.

(** [segments.map(segment => ({ text: segment, highlight: regex.test(segment) }))],
    the one regex going from segment to segment with its [lastIndex]. *)
Fixpoint markSegments (literal : jsstring) (lastIndex : nat)
    (segments : list jsstring) : list (jsstring * bool) :=
  match segments with
  | [] => []
  | segment :: rest =>
      let (highlight, lastIndex') := test literal lastIndex segment in
      (segment, highlight) :: markSegments literal lastIndex' rest
  end.

(** The [parts] of HighlightMatch: pairs of [text] and [highlight]. *)
Definition highlightParts (text query : jsstring) : list (jsstring * bool) :=
  if negb (truthy (trim query)) then [(text, false)]
  else match literalOf (escapeRegExp query) with
       | Some literal => markSegments literal 0 (split literal text)
       | None => [(text, false)]
       end.

(** Segments as [split] lays them out: text without a match, a match,
    text without a match, and so on. *)
Definition matchFree (literal segment : jsstring) : Prop :=
  forall j, matchesAt literal (skipn j segment) = false.

Definition exactMatch (literal segment : jsstring) : Prop :=
  length segment = length literal /\
  map canonicalize segment = map canonicalize literal.

Fixpoint alternating (literal : jsstring) (segments : list jsstring) : Prop :=
  match segments with
  | [] => False
  | [segment] => matchFree literal segment
  | segment :: found :: rest =>
      matchFree literal segment /\ exactMatch literal found /\
      alternating literal rest
  end.

(** Marks that go false, true, false, ... along the segments. *)
Fixpoint marked (highlight : bool) (segments : list jsstring)
  : list (jsstring * bool) :=
  match segments with
  | [] => []
  | segment :: rest => (segment, highlight) :: marked (negb highlight) rest
  end.

End Highlight.

(* ================================================================== *)
(** * Facts about [trim] *)

Section TrimFacts.

Lemma trimStart_nil_iff (s : jsstring) :
  trimStart s = [] <-> whitespaceOnly s = true.
Proof.
  unfold whitespaceOnly.
  induction s as [|c r IH]; simpl; [tauto|].
  destruct (isWhiteSpace c); simpl; [exact IH|].
  split; discriminate.
Qed.

Lemma trimStart_head (s : jsstring) (c : N) (r : jsstring) :
  trimStart s = c :: r -> isWhiteSpace c = false.
Proof.
  induction s as [|d t IH]; simpl; [discriminate|].
  destruct (isWhiteSpace d) eqn:E; [exact IH|].
  intros [= <- _]; exact E.
Qed.

Lemma trimStart_keeps (c : N) (r : jsstring) :
  isWhiteSpace c = false -> trimStart (c :: r) = c :: r.
Proof. intros E; simpl; now rewrite E. Qed.

Lemma trimStart_idem (s : jsstring) : trimStart (trimStart s) = trimStart s.
Proof.
  destruct (trimStart s) as [|c r] eqn:E; [reflexivity|].
  apply trimStart_keeps, (trimStart_head s _ _ E).
Qed.

Lemma trimStart_snoc (s : jsstring) (c : N) :
  isWhiteSpace c = false -> trimStart (s ++ [c]) = trimStart s ++ [c].
Proof.
  intros E; induction s as [|d t IH]; simpl.
  - now rewrite E.
  - destruct (isWhiteSpace d); [exact IH | reflexivity].
Qed.

Lemma trimEnd_cons (c : N) (r : jsstring) :
  isWhiteSpace c = false -> trimEnd (c :: r) = c :: trimEnd r.
Proof.
  intros E; unfold trimEnd; simpl.
  rewrite (trimStart_snoc _ _ E), rev_app_distr; reflexivity.
Qed.

Lemma trimEnd_idem (s : jsstring) : trimEnd (trimEnd s) = trimEnd s.
Proof. unfold trimEnd; now rewrite rev_involutive, trimStart_idem. Qed.

(** [trim] either yields the empty string or keeps the first code unit
    that is not white space. *)
Lemma trim_shape (s : jsstring) :
  trim s = match trimStart s with
           | [] => []
           | c :: r => c :: trimEnd r
           end.
Proof.
  unfold trim; destruct (trimStart s) as [|c r] eqn:E; [reflexivity|].
  apply trimEnd_cons, (trimStart_head s _ _ E).
Qed.

Lemma trim_nil_iff (s : jsstring) : trim s = [] <-> whitespaceOnly s = true.
Proof.
  rewrite trim_shape, <- trimStart_nil_iff.
  destruct (trimStart s); split; auto; discriminate.
Qed.

Lemma trim_idem (s : jsstring) : trim (trim s) = trim s.
Proof.
  assert (H : trimStart (trim s) = trim s).
  { rewrite trim_shape; destruct (trimStart s) as [|c r] eqn:E; [reflexivity|].
    apply trimStart_keeps, (trimStart_head s _ _ E). }
  unfold trim at 1; rewrite H; unfold trim; apply trimEnd_idem.
Qed.

Lemma truthy_trim (s : jsstring) :
  truthy (trim s) = negb (whitespaceOnly s).
Proof.
  destruct (whitespaceOnly s) eqn:E.
  - apply trim_nil_iff in E; now rewrite E.
  - destruct (trim s) eqn:T; [|reflexivity].
    apply trim_nil_iff in T; congruence.
Qed.

(** A string that [trim] leaves alone and that is not empty is not made
    of white space only. *)
Lemma trimmed_not_blank (q : jsstring) :
  trim q = q -> q <> [] -> whitespaceOnly q = false.
Proof.
  intros T N; destruct (whitespaceOnly q) eqn:E; [|reflexivity].
  apply trim_nil_iff in E; congruence.
Qed.

End TrimFacts.

(* ================================================================== *)
(** * The reducer *)

Lemma stateInv_initial : stateInv initialState.
Proof. split; simpl; intros H; now elim H. Qed.

Lemma stateInv_reducer (s : SearchState) (a : Action) :
  stateInv s -> stateInv (searchReducer s a).
Proof.
  intros [R E]; destruct a; simpl; try apply stateInv_initial;
    split; simpl; intros H; auto; try (now elim H).
Qed.

(* ================================================================== *)
(** * The debounce timer *)

Lemma clearTimeout_own (h : Hook) :
  timerInv h -> timeouts (clearTimeout (debounceTimer h) h) = [].
Proof.
  unfold timerInv, clearTimeout.
  destruct (timeouts h) as [|t [|u r]] eqn:T; intros I.
  - destruct (debounceTimer h); simpl; auto.
  - rewrite I; simpl; now rewrite Nat.eqb_refl.
  - contradiction.
Qed.

Lemma clearTimeout_frame (id : option nat) (h : Hook) :
  state (clearTimeout id h) = state h /\
  debounceTimer (clearTimeout id h) = debounceTimer h /\
  nextHandle (clearTimeout id h) = nextHandle h /\
  clock (clearTimeout id h) = clock h /\
  inflight (clearTimeout id h) = inflight h /\
  nextFetch (clearTimeout id h) = nextFetch h /\
  fetchCalls (clearTimeout id h) = fetchCalls h.
Proof. destruct id; simpl; repeat split. Qed.

Section Debounce.

Variable delay : nat.

(** A submission that trims to nothing. *)
Lemma search_blank (rawQuery : jsstring) (h : Hook) :
  whitespaceOnly rawQuery = true ->
  search delay rawQuery h =
  dispatch CLEAR (clearTimeout (debounceTimer h) (dispatch (SET_QUERY rawQuery) h)).
Proof.
  intros W; unfold search; rewrite truthy_trim, W; reflexivity.
Qed.

(** A submission with text in it. *)
Lemma search_text (rawQuery : jsstring) (h : Hook) :
  whitespaceOnly rawQuery = false ->
  search delay rawQuery h =
  setDebounce (trim rawQuery) delay
    (clearTimeout (debounceTimer h) (dispatch (SET_QUERY rawQuery) h)).
Proof.
  intros W; unfold search; rewrite truthy_trim, W; reflexivity.
Qed.

Lemma search_blank_effect (rawQuery : jsstring) (h : Hook) :
  timerInv h -> whitespaceOnly rawQuery = true ->
  state (search delay rawQuery h) = initialState /\
  timeouts (search delay rawQuery h) = [] /\
  clock (search delay rawQuery h) = clock h /\
  inflight (search delay rawQuery h) = inflight h /\
  fetchCalls (search delay rawQuery h) = fetchCalls h.
Proof.
  intros I W; rewrite (search_blank _ _ W).
  pose proof (clearTimeout_own (dispatch (SET_QUERY rawQuery) h) I) as C.
  destruct (clearTimeout_frame (debounceTimer h) (dispatch (SET_QUERY rawQuery) h))
    as (_ & _ & _ & K & F & _ & L).
  simpl in *; repeat split; auto.
Qed.

Lemma search_text_effect (rawQuery : jsstring) (h : Hook) :
  timerInv h -> whitespaceOnly rawQuery = false ->
  state (search delay rawQuery h) = searchReducer (state h) (SET_QUERY rawQuery) /\
  timeouts (search delay rawQuery h) =
    [mkTimeout (nextHandle h) (clock h + delay) (trim rawQuery)] /\
  debounceTimer (search delay rawQuery h) = Some (nextHandle h) /\
  clock (search delay rawQuery h) = clock h /\
  inflight (search delay rawQuery h) = inflight h /\
  fetchCalls (search delay rawQuery h) = fetchCalls h.
Proof.
  intros I W; rewrite (search_text _ _ W).
  pose proof (clearTimeout_own (dispatch (SET_QUERY rawQuery) h) I) as C.
  destruct (clearTimeout_frame (debounceTimer h) (dispatch (SET_QUERY rawQuery) h))
    as (S & _ & N & K & F & _ & L).
  simpl in *; unfold setDebounce; simpl.
  rewrite C, S, N, K, F, L; repeat split.
Qed.

Lemma clear_effect (h : Hook) :
  timerInv h ->
  state (clear h) = initialState /\
  timeouts (clear h) = [] /\
  clock (clear h) = clock h /\
  inflight (clear h) = inflight h /\
  fetchCalls (clear h) = fetchCalls h.
Proof.
  intros I; unfold clear.
  pose proof (clearTimeout_own h I) as C.
  destruct (clearTimeout_frame (debounceTimer h) h) as (_ & _ & _ & K & F & _ & L).
  simpl; repeat split; auto.
Qed.

(** Time passing with nothing pending. *)
Lemma elapse_idle (dt : nat) (h : Hook) :
  timeouts h = [] ->
  state (elapse dt h) = state h /\ timeouts (elapse dt h) = [] /\
  clock (elapse dt h) = clock h + dt /\
  inflight (elapse dt h) = inflight h /\
  fetchCalls (elapse dt h) = fetchCalls h /\
  debounceTimer (elapse dt h) = debounceTimer h.
Proof. intros T; unfold elapse; rewrite T; simpl; repeat split. Qed.

(** Time passing short of the pending timeout. *)
Lemma elapse_short (dt : nat) (h : Hook) (t : Timeout) :
  timeouts h = [t] -> clock h + dt < due t ->
  state (elapse dt h) = state h /\ timeouts (elapse dt h) = [t] /\
  clock (elapse dt h) = clock h + dt /\
  inflight (elapse dt h) = inflight h /\
  fetchCalls (elapse dt h) = fetchCalls h /\
  debounceTimer (elapse dt h) = debounceTimer h.
Proof.
  intros T D; unfold elapse, isDue; rewrite T; simpl.
  destruct (Nat.leb_spec (due t) (clock h + dt)); [lia|].
  simpl; repeat split.
Qed.

(** Time passing up to the pending timeout: its callback runs. *)
Lemma elapse_fires (dt : nat) (h : Hook) (t : Timeout) :
  timeouts h = [t] -> due t <= clock h + dt ->
  state (elapse dt h) = searchReducer (state h) FETCH_START /\
  timeouts (elapse dt h) = [] /\
  clock (elapse dt h) = clock h + dt /\
  inflight (elapse dt h) = inflight h ++ [(nextFetch h, captured t)] /\
  fetchCalls (elapse dt h) = fetchCalls h ++ [captured t] /\
  debounceTimer (elapse dt h) = debounceTimer h.
Proof.
  intros T D; unfold elapse, isDue; rewrite T; simpl.
  destruct (Nat.leb_spec (due t) (clock h + dt)); [|lia].
  simpl; repeat split.
Qed.

Lemma settle_frame (f : nat) (o : Outcome) (h : Hook) :
  timeouts (settle f o h) = timeouts h /\
  debounceTimer (settle f o h) = debounceTimer h /\
  clock (settle f o h) = clock h /\
  fetchCalls (settle f o h) = fetchCalls h.
Proof. unfold settle; destruct (awaited f h); simpl; repeat split. Qed.

Lemma timerInv_mount : timerInv mount.
Proof. exact I. Qed.

Lemma timerInv_hstep (h : Hook) (e : HookEvent) :
  timerInv h -> timerInv (hstep delay h e).
Proof.
  intros I; destruct e as [raw| |dt|f o]; simpl.
  - destruct (whitespaceOnly raw) eqn:W.
    + destruct (search_blank_effect raw h I W) as (_ & T & _).
      unfold timerInv; now rewrite T.
    + destruct (search_text_effect raw h I W) as (_ & T & R & _).
      unfold timerInv; now rewrite T, R.
  - destruct (clear_effect h I) as (_ & T & _).
    unfold timerInv; now rewrite T.
  - unfold timerInv in *.
    destruct (timeouts h) as [|t [|u r]] eqn:T; [| |contradiction].
    + destruct (elapse_idle dt h T) as (_ & T' & _); now rewrite T'.
    + destruct (Nat.le_gt_cases (due t) (clock h + dt)) as [D|D].
      * destruct (elapse_fires dt h t T D) as (_ & T' & _); now rewrite T'.
      * destruct (elapse_short dt h t T D) as (_ & T' & _ & _ & _ & R).
        now rewrite T', R.
  - destruct (settle_frame f o h) as (T & R & _).
    unfold timerInv in *; now rewrite T, R.
Qed.

Lemma hrun_snoc (h : Hook) (es : list HookEvent) (e : HookEvent) :
  hrun delay h (es ++ [e]) = hstep delay (hrun delay h es) e.
Proof. unfold hrun; now rewrite fold_left_app. Qed.

Lemma timerInv_hrun (h : Hook) (es : list HookEvent) :
  timerInv h -> timerInv (hrun delay h es).
Proof.
  revert h; induction es as [|e es IH]; intros h I; simpl; auto.
  apply IH, timerInv_hstep, I.
Qed.

Lemma timerInv_reachable (h : Hook) : hreachable delay h -> timerInv h.
Proof. intros [es ->]; apply timerInv_hrun, timerInv_mount. Qed.

End Debounce.

(* ================================================================== *)
(** * Submissions *)

Lemma last_cons {A : Type} (x d : A) (l : list A) : last (x :: l) d = last l x.
Proof.
  revert x d; induction l as [|y l IH]; intros x d; [reflexivity|].
  change (last (x :: y :: l) d) with (last (y :: l) d).
  now rewrite (IH y d), (IH y x).
Qed.

Section Bursts.

Variable delay : nat.

(** Once a timeout is armed, submissions that keep coming within the
    window only replace it. *)
Lemma burstTail_run (rest : list (nat * jsstring)) :
  forall (h : Hook) (t : Timeout) (rawQuery : jsstring),
    timeouts h = [t] -> debounceTimer h = Some (handle t) ->
    due t = clock h + delay -> captured t = trim rawQuery ->
    Forall (withinWindow delay) rest ->
    fetchCalls (hrun delay h (burstTail rest)) = fetchCalls h /\
    exists t',
      timeouts (hrun delay h (burstTail rest)) = [t'] /\
      captured t' = trim (last (map snd rest) rawQuery) /\
      due t' = clock (hrun delay h (burstTail rest)) + delay.
Proof.
  induction rest as [|[gap raw] rest IH]; intros h t raw0 T R D C W.
  - split; [reflexivity|]; exists t; auto.
  - inversion W as [|p l [G B] W']; subst; simpl in G, B.
    change (hrun delay h (burstTail ((gap, raw) :: rest)))
      with (hrun delay (search delay raw (elapse gap h)) (burstTail rest)).
    destruct (elapse_short gap h t T) as (_ & T1 & K1 & _ & L1 & R1); [lia|].
    assert (I1 : timerInv (elapse gap h))
      by (unfold timerInv; rewrite T1, R1; exact R).
    destruct (search_text_effect delay raw (elapse gap h) I1 B)
      as (_ & T2 & R2 & K2 & _ & L2).
    destruct (IH (search delay raw (elapse gap h)) _ raw T2 R2) as (L3 & t' & T3 & C3 & D3);
      [simpl; now rewrite K2 | reflexivity | exact W' |].
    split; [congruence|].
    exists t'; split; [exact T3|]; split; [|exact D3].
    rewrite C3; change (map snd ((gap, raw) :: rest)) with (raw :: map snd rest).
    now rewrite last_cons.
Qed.

End Bursts.

(** C2. A burst of submissions with text in them, each within the debounce
    window of the one before: nothing is fetched during the burst, each
    submission leaves exactly one timeout pending, due a full delay later and
    carrying the trimmed text of the latest submission, and once the delay
    has passed exactly one fetch has been issued, with the trimmed text of
    the last submission, and no other however long one waits. *)
Theorem debounce_burst (delay : nat) (h : Hook) (first : jsstring)
    (rest : list (nat * jsstring)) :
  hreachable delay h ->
  whitespaceOnly first = false ->
  Forall (withinWindow delay) rest ->
  let quiet := hrun delay h (burst first rest) in
  fetchCalls quiet = fetchCalls h /\
  (exists t, timeouts quiet = [t] /\
             captured t = trim (lastSubmitted first rest) /\
             due t = clock quiet + delay) /\
  fetchCalls (elapse delay quiet) =
    fetchCalls h ++ [trim (lastSubmitted first rest)] /\
  (forall dt, fetchCalls (elapse dt (elapse delay quiet)) =
              fetchCalls h ++ [trim (lastSubmitted first rest)]).
Proof.
  intros Hr B W quiet.
  pose proof (timerInv_reachable delay h Hr) as I.
  destruct (search_text_effect delay first h I B) as (_ & T & R & K & _ & L).
  destruct (burstTail_run delay rest (search delay first h) _ first T R) as (L' & t & T' & C & D);
    [simpl; now rewrite K | reflexivity | exact W |].
  fold (burst first rest) in *.
  change (hrun delay (search delay first h) (burstTail rest)) with quiet in *.
  unfold lastSubmitted.
  split; [congruence|]. split; [exists t; auto|].
  destruct (elapse_fires delay quiet t T') as (_ & T'' & _ & _ & F & _); [lia|].
  assert (F' : fetchCalls (elapse delay quiet) =
               fetchCalls h ++ [trim (lastSubmitted first rest)])
    by (unfold lastSubmitted; rewrite F, C; congruence).
  split; [exact F'|].
  intros dt; destruct (elapse_idle dt (elapse delay quiet) T'') as (_ & _ & _ & _ & L'' & _).
  now rewrite L''.
Qed.

(** Three keystrokes 100ms and 250ms apart, on a hook that already has a
    timeout pending. *)
Lemma debounce_burst_witness :
  let h := hrun 400 mount [HSearch (js "H")] in
  let quiet := hrun 400 h (burst (js "Ha") [(100, js "Har"); (250, js " Harry ")]) in
  fetchCalls quiet = [] /\
  fetchCalls (elapse 400 quiet) = [js "Harry"].
Proof.
  intros h quiet.
  destruct (debounce_burst 400 h (js "Ha") [(100, js "Har"); (250, js " Harry ")])
    as (Q & _ & F & _).
  - exists [HSearch (js "H")]; reflexivity.
  - reflexivity.
  - repeat constructor.
  - split; [exact Q | exact F].
Defined.

(** C6. Submitting text that is empty or white space only, from any state
    the hook can be in: at once the status is idle, the query is empty and
    there are no results; no timeout is left pending; the submission calls
    [fetchFn] neither at once nor however long one waits. *)
Theorem blank_submit_resets (delay : nat) (h : Hook) (rawQuery : jsstring) :
  hreachable delay h ->
  whitespaceOnly rawQuery = true ->
  let h' := search delay rawQuery h in
  status (state h') = Idle /\ query (state h') = [] /\
  results (state h') = [] /\ error (state h') = None /\
  timeouts h' = [] /\
  fetchCalls h' = fetchCalls h /\
  forall dt, fetchCalls (elapse dt h') = fetchCalls h.
Proof.
  intros Hr W h'.
  destruct (search_blank_effect delay rawQuery h (timerInv_reachable delay h Hr) W)
    as (S & T & _ & _ & L).
  fold h' in S, T, L; rewrite S; repeat split; auto.
  intros dt; destruct (elapse_idle dt h' T) as (_ & _ & _ & _ & L' & _); congruence.
Qed.

Lemma blank_submit_witness :
  let h := hrun 400 mount [HSearch (js "Emma"); HElapse 150] in
  let h' := search 400 (js "   ") h in
  timeouts h <> [] /\ state h' = initialState /\ timeouts h' = [] /\
  fetchCalls (elapse 1000 h') = [].
Proof.
  intros h h'.
  destruct (blank_submit_resets 400 h (js "   ")) as (S & Q & R & E & T & _ & F).
  - exists [HSearch (js "Emma"); HElapse 150]; reflexivity.
  - reflexivity.
  - split; [discriminate|]. split; [reflexivity|].
    split; [exact T | exact (F 1000)].
Defined.

(* ================================================================== *)
(** * What [fetchFn] is called with *)

Lemma submitted_trimmed (es : list HookEvent) (q : jsstring) :
  submitted es q -> trimmedQuery q.
Proof.
  intros (raw & _ & W & ->).
  assert (N : trim raw <> []) by (intros E; apply trim_nil_iff in E; congruence).
  split; [apply trim_idem|]. split; [exact N|].
  apply trimmed_not_blank; [apply trim_idem | exact N].
Qed.

Lemma submitted_snoc (es : list HookEvent) (e : HookEvent) (q : jsstring) :
  submitted es q -> submitted (es ++ [e]) q.
Proof.
  intros (raw & H & W & E); exists raw; repeat split; auto.
  apply in_or_app; now left.
Qed.

Section FetchArguments.

Variable delay : nat.

(** Every query fetched so far, and the query of the pending timeout,
    is the trimmed form of a submitted text. *)
Lemma fetch_origin (es : list HookEvent) :
  (forall q, In q (fetchCalls (hrun delay mount es)) -> submitted es q) /\
  (forall t, In t (timeouts (hrun delay mount es)) -> submitted es (captured t)).
Proof.
  induction es as [|e es [IHc IHt]] using rev_ind.
  - split; intros x [].
  - rewrite hrun_snoc.
    set (h := hrun delay mount es) in *.
    assert (I : timerInv h) by (apply timerInv_hrun, timerInv_mount).
    assert (Mc : forall q, In q (fetchCalls h) -> submitted (es ++ [e]) q)
      by (intros q H; apply submitted_snoc, IHc, H).
    assert (Mt : forall t, In t (timeouts h) -> submitted (es ++ [e]) (captured t))
      by (intros t H; apply submitted_snoc, IHt, H).
    destruct e as [raw| |dt|f o]; cbn [hstep].
    + destruct (whitespaceOnly raw) eqn:W.
      * destruct (search_blank_effect delay raw h I W) as (_ & T & _ & _ & L).
        rewrite T, L; split; [exact Mc | intros t []].
      * destruct (search_text_effect delay raw h I W) as (_ & T & _ & _ & _ & L).
        rewrite T, L; split; [exact Mc|].
        intros t [<-|[]]; exists raw; repeat split; auto.
        apply in_or_app; right; now left.
    + destruct (clear_effect h I) as (_ & T & _ & _ & L).
      rewrite T, L; split; [exact Mc | intros t []].
    + unfold timerInv in I.
      destruct (timeouts h) as [|t [|u r]] eqn:T; [| |contradiction].
      * destruct (elapse_idle dt h T) as (_ & T' & _ & _ & L & _).
        rewrite T', L; split; [exact Mc | intros t []].
      * destruct (Nat.le_gt_cases (due t) (clock h + dt)) as [D|D].
        -- destruct (elapse_fires dt h t T D) as (_ & T' & _ & _ & L & _).
           rewrite T', L; split; [|intros x []].
           intros q H; apply in_app_or in H; destruct H as [H|[<-|[]]]; auto.
           apply Mt; now left.
        -- destruct (elapse_short dt h t T D) as (_ & T' & _ & _ & L & _).
           rewrite T', L; split; [exact Mc | exact Mt].
    + destruct (settle_frame f o h) as (T & _ & _ & L).
      rewrite T, L; split; [exact Mc | exact Mt].
Qed.

End FetchArguments.

(** C8. Whatever happened to the hook, every argument [fetchFn] was called
    with is the trimmed form of a submitted text, is unchanged by trimming,
    is not empty and is not white space only; and a submission with text in
    it sets the query of the state to the text as submitted, untrimmed,
    while the timeout it arms carries the trimmed text. *)
Theorem fetch_only_trimmed (delay : nat) (es : list HookEvent) (rawQuery : jsstring) :
  let h := hrun delay mount es in
  (forall q, In q (fetchCalls h) -> submitted es q /\ trimmedQuery q) /\
  (whitespaceOnly rawQuery = false ->
   query (state (search delay rawQuery h)) = rawQuery /\
   exists t, timeouts (search delay rawQuery h) = [t] /\
             captured t = trim rawQuery).
Proof.
  intros h; split.
  - intros q H; apply (fetch_origin delay es) in H.
    split; [exact H | exact (submitted_trimmed es q H)].
  - intros W.
    assert (I : timerInv h) by (apply timerInv_hrun, timerInv_mount).
    destruct (search_text_effect delay rawQuery h I W) as (S & T & _).
    rewrite S; split; [reflexivity|].
    eexists; split; [exact T | reflexivity].
Qed.

Lemma fetch_only_trimmed_witness :
  let es := [HSearch (js "  Emma "); HElapse 400] in
  let h := hrun 400 mount es in
  fetchCalls h = [js "Emma"] /\
  trimmedQuery (js "Emma") /\
  query (state (search 400 (js " Dracula  ") h)) = js " Dracula  ".
Proof.
  intros es h.
  destruct (fetch_only_trimmed 400 es (js " Dracula  ")) as (F & Q).
  split; [reflexivity|]. split.
  - apply (F (js "Emma")); now left.
  - apply Q; reflexivity.
Defined.

(* ================================================================== *)
(** * The shape of the reducer state *)

Section StateShape.

Variable delay : nat.

Lemma state_search (rawQuery : jsstring) (h : Hook) :
  state (search delay rawQuery h) =
  if whitespaceOnly rawQuery then initialState
  else searchReducer (state h) (SET_QUERY rawQuery).
Proof.
  destruct (whitespaceOnly rawQuery) eqn:W.
  - now rewrite (search_blank delay _ h W).
  - rewrite (search_text delay _ h W); unfold setDebounce; simpl.
    now destruct (debounceTimer h).
Qed.

Lemma stateInv_timeouts (due : list Timeout) :
  forall h, stateInv (state h) -> stateInv (state (fold_left onTimeout due h)).
Proof.
  induction due as [|t due IH]; intros h I; simpl; auto.
  apply IH; exact (stateInv_reducer (state h) FETCH_START I).
Qed.

Lemma stateInv_hstep (h : Hook) (e : HookEvent) :
  stateInv (state h) -> stateInv (state (hstep delay h e)).
Proof.
  intros I; destruct e as [raw| |dt|f o]; cbn [hstep].
  - rewrite state_search; destruct (whitespaceOnly raw).
    + apply stateInv_initial.
    + now apply stateInv_reducer.
  - apply stateInv_initial.
  - unfold elapse; apply stateInv_timeouts; exact I.
  - unfold settle; destruct (awaited f h); [|exact I].
    exact (stateInv_reducer (state h) (settlement o) I).
Qed.

Lemma stateInv_reachable (h : Hook) : hreachable delay h -> stateInv (state h).
Proof.
  intros [es ->]; induction es as [|e es IH] using rev_ind.
  - apply stateInv_initial.
  - rewrite hrun_snoc; now apply stateInv_hstep.
Qed.

End StateShape.

(** C5, as the code has it. In every state the hook can reach: results are
    present only while the status is success or loading (FETCH_START keeps
    the results of the fetch before), an error message is present only
    while the status is error or success, never while it is idle or
    loading, and at most one debounce timeout is pending. *)
Theorem reachable_state_shape (delay : nat) (h : Hook) :
  hreachable delay h ->
  (results (state h) <> [] ->
   status (state h) = Success \/ status (state h) = Loading) /\
  (error (state h) <> None ->
   status (state h) = Error \/ status (state h) = Success) /\
  length (timeouts h) <= 1.
Proof.
  intros Hr.
  destruct (stateInv_reachable delay h Hr) as [R E].
  split; [exact R|]. split; [exact E|].
  pose proof (timerInv_reachable delay h Hr) as I; unfold timerInv in I.
  destruct (timeouts h) as [|t [|u r]]; simpl; [lia | lia | contradiction].
Qed.

Lemma reachable_state_shape_witness :
  let h := hrun 400 mount
             [HSearch (js "Emma"); HElapse 400; HSettle 0 (Fulfilled [bookA]);
              HSearch (js "Emma W")] in
  results (state h) <> [] /\
  (status (state h) = Success \/ status (state h) = Loading) /\
  length (timeouts h) <= 1.
Proof.
  intros h.
  assert (Hr : hreachable 400 h) by (eexists; reflexivity).
  destruct (reachable_state_shape 400 h Hr) as (R & _ & T).
  assert (N : results (state h) <> []) by discriminate.
  split; [exact N|]. split; [exact (R N) | exact T].
Defined.

(** C5 as stated fails. After a successful fetch, the timeout of the next
    submission fires: the status is loading and the earlier results are
    still there. And two submissions whose timeouts fire one after the
    other leave two fetches in flight. *)
Lemma results_while_loading_counterexample :
  let h := hrun appDelay mount
             [HSearch (js "Emma"); HElapse 400; HSettle 0 (Fulfilled [bookA]);
              HSearch (js "Emma W"); HElapse 400] in
  let h2 := hrun appDelay mount
             [HSearch (js "Em"); HElapse 400; HSearch (js "Emma"); HElapse 400] in
  (results (state h) = [bookA] /\ status (state h) = Loading /\
   status (state h) <> Success) /\
  inflight h2 = [(0, js "Em"); (1, js "Emma")].
Proof.
  intros h h2; split; [split; [|split]|]; try reflexivity; discriminate.
Qed.

(** With two fetches in flight, the first failing and the second
    succeeding leave an error message beside the status success. *)
Example error_while_success :
  let h := hrun appDelay mount
             [HSearch (js "Em"); HElapse 400; HSearch (js "Emma"); HElapse 400;
              HSettle 0 (Rejected (js "API Error: 500")); HSettle 1 (Fulfilled [bookA])] in
  status (state h) = Success /\ error (state h) = Some (js "API Error: 500").
Proof. split; reflexivity. Qed.

(* ================================================================== *)
(** * Fetches that settle late *)

Lemma settle_awaited (f : nat) (o : Outcome) (h : Hook) :
  awaited f h = true ->
  state (settle f o h) = searchReducer (state h) (settlement o).
Proof. intros A; unfold settle; now rewrite A. Qed.

(** C1, as the code has it. A fetch in flight is not tied to the state it
    was issued from: [clear] resets the state and cancels the pending
    timeout but leaves the fetch awaited, and so does a new submission;
    when the fetch settles its action is applied to whatever the state is
    then. After [clear] that gives status success with the payload as
    results, or status error with the message; of the cleared state only
    the query survives. *)
Theorem late_settlement_applies (delay : nat) (h : Hook) (f : nat) (o : Outcome) :
  hreachable delay h ->
  awaited f h = true ->
  (state (clear h) = initialState /\ timeouts (clear h) = [] /\
   awaited f (clear h) = true) /\
  (forall rawQuery, awaited f (search delay rawQuery h) = true) /\
  state (settle f o (clear h)) =
    match o with
    | Fulfilled payload => mkSearchState Success [] payload None
    | Rejected message => mkSearchState Error [] [] (Some message)
    end /\
  (forall h', awaited f h' = true ->
     state (settle f o h') = searchReducer (state h') (settlement o) /\
     query (state (settle f o h')) = query (state h')).
Proof.
  intros Hr A.
  destruct (clear_effect h (timerInv_reachable delay h Hr)) as (S & T & _ & F & _).
  assert (Ac : awaited f (clear h) = true) by (unfold awaited; now rewrite F).
  split; [auto|]. split; [|split].
  - intros raw; unfold awaited.
    pose proof (timerInv_reachable delay h Hr) as I.
    destruct (whitespaceOnly raw) eqn:W.
    + destruct (search_blank_effect delay raw h I W) as (_ & _ & _ & F' & _).
      now rewrite F'.
    + destruct (search_text_effect delay raw h I W) as (_ & _ & _ & _ & F' & _).
      now rewrite F'.
  - rewrite (settle_awaited f o (clear h) Ac), S; now destruct o.
  - intros h' A'; rewrite (settle_awaited f o h' A').
    split; [reflexivity | now destruct o].
Qed.

Lemma late_settlement_witness :
  let h := hrun 400 mount [HSearch (js "Emma"); HElapse 400] in
  awaited 0 h = true /\
  state (clear h) = initialState /\
  state (settle 0 (Fulfilled [bookA; bookB]) (clear h)) =
    mkSearchState Success [] [bookA; bookB] None.
Proof.
  intros h.
  assert (Hr : hreachable 400 h) by (eexists; reflexivity).
  destruct (late_settlement_applies 400 h 0 (Fulfilled [bookA; bookB]) Hr eq_refl)
    as ((S & _) & _ & L & _).
  split; [reflexivity|]. split; [exact S | exact L].
Defined.

(** C1 as stated fails. A fetch is in flight when [clear] is called; when
    it settles, with results or with a failure, the state is no longer
    the cleared one. The same after a new submission has replaced the
    query: the results of the old fetch arrive under the new query. *)
Lemma late_settlement_counterexample :
  let cleared := hrun appDelay mount [HSearch (js "Emma"); HElapse 400; HClear] in
  let requeried := hrun appDelay mount
                     [HSearch (js "Emma"); HElapse 400; HSearch (js "Dracula")] in
  awaited 0 cleared = true /\
  state cleared = initialState /\
  state (settle 0 (Fulfilled [bookA]) cleared) <> state cleared /\
  state (settle 0 (Rejected (js "Failed to fetch")) cleared) <> state cleared /\
  awaited 0 requeried = true /\
  state (settle 0 (Fulfilled [bookA]) requeried) <> state requeried.
Proof.
  intros cleared requeried.
  repeat (split; [first [reflexivity | discriminate]|]); discriminate.
Qed.

(* ================================================================== *)
(** * The component *)

Lemma run_snoc (a : App) (es : list Event) (e : Event) :
  run a (es ++ [e]) = step (run a es) e.
Proof. unfold run; now rewrite fold_left_app. Qed.

(** Each event moves the hook by at most one hook event. *)
Lemma step_hook (a : App) (e : Event) :
  hook (step a e) = hook a \/
  exists he, hook (step a e) = hstep appDelay (hook a) he.
Proof.
  destruct e as [v|k| |i|k i|inside|dt|f o]; simpl.
  - right; now exists (HSearch v).
  - destruct k; simpl; auto.
    + unfold handleArrowDown; destruct (_ <? _); auto.
    + right; now exists HClear.
  - destruct (clearButtonRendered a); auto; right; now exists HClear.
  - destruct (listRendered a); auto; unfold itemClick.
    destruct (nth_error _ i) as [r|]; auto; right; now exists (HSearch (title r)).
  - destruct (listRendered a); auto; destruct k; simpl; auto.
    + destruct (nth_error _ i) as [r|]; auto; right; now exists (HSearch (title r)).
    + right; now exists HClear.
  - destruct inside; simpl; auto.
  - right; now exists (HElapse dt).
  - right; now exists (HSettle f o).
Qed.

Lemma reachable_hook (a : App) : reachable a -> hreachable appDelay (hook a).
Proof.
  intros [es ->]; induction es as [|e es IH] using rev_ind.
  - now exists [].
  - rewrite run_snoc; destruct IH as [hs IH].
    destruct (step_hook (run initialApp es) e) as [-> | [he ->]].
    + now exists hs.
    + exists (hs ++ [he]); now rewrite hrun_snoc, IH.
Qed.

Lemma listRendered_nonempty (a : App) :
  listRendered a = true -> (0 <= lastIndex a)%Z.
Proof.
  unfold listRendered, dropdown, lastIndex.
  destruct (showDropdown a); [|discriminate].
  destruct (status (state (hook a))); try discriminate.
  destruct (length (results (state (hook a)))); [simpl; discriminate | intros _; lia].
Qed.

(** C9. The dropdown container is rendered exactly when [isOpen] holds
    and the query, trimmed, is not empty; a query that trims to the empty
    string suppresses it whatever [isOpen] is. *)
Theorem dropdown_visibility (a : App) :
  (dropdown a <> None <->
   isOpen a = true /\ trim (query (state (hook a))) <> []) /\
  (trim (query (state (hook a))) = [] -> dropdown a = None) /\
  showDropdown a = isOpen a && truthy (trim (query (state (hook a)))).
Proof.
  assert (S : showDropdown a = isOpen a && truthy (trim (query (state (hook a)))))
    by (unfold showDropdown; now destruct (trim (query (state (hook a))))).
  unfold dropdown; rewrite S.
  destruct (isOpen a), (trim (query (state (hook a)))) as [|c r]; simpl;
    repeat split; try tauto; try discriminate; intros H; try (now destruct H).
Qed.

Lemma dropdown_visibility_witness :
  let a := mkApp (dispatch (SET_QUERY (js "   ")) mount) true (-1) in
  isOpen a = true /\ trim (query (state (hook a))) = [] /\ dropdown a = None.
Proof.
  intros a; split; [reflexivity|]. split; [reflexivity|].
  apply (proj1 (proj2 (dropdown_visibility a))); reflexivity.
Defined.

(* ================================================================== *)
(** * Moving through the list *)





(** The key handler of a rendered list uses exactly these updaters, and
    the list stays rendered while the arrows move through it. *)
Lemma itemKeyDown_arrows (a : App) (index : nat) :
  listRendered a = true ->
  step a (ItemKeyDown ArrowDown index) =
    mkApp (hook a) (isOpen a)
          (onDownInList (results (state (hook a))) (activeIndex a)) /\
  step a (ItemKeyDown ArrowUp index) =
    mkApp (hook a) (isOpen a) (onUpInList (activeIndex a)).
Proof. intros L; simpl; now rewrite L. Qed.

Lemma listRendered_index (h : Hook) (o : bool) (i j : Z) :
  listRendered (mkApp h o i) = listRendered (mkApp h o j).
Proof.
  unfold listRendered, dropdown, showDropdown; simpl.
  destruct o, (0 <? length (trim (query (state h)))), (status (state h)),
    (length (results (state h)) =? 0); reflexivity.
Qed.

Lemma arrows_down_run (n : nat) :
  forall (a : App) (index : nat),
    listRendered a = true ->
    run a (repeat (ItemKeyDown ArrowDown index) n) =
      mkApp (hook a) (isOpen a)
            (Nat.iter n (onDownInList (results (state (hook a)))) (activeIndex a)).
Proof.
  induction n as [|n IH]; intros a index L.
  - now destruct a.
  - change (run a (repeat (ItemKeyDown ArrowDown index) (S n)))
      with (run (step a (ItemKeyDown ArrowDown index))
                (repeat (ItemKeyDown ArrowDown index) n)).
    destruct (itemKeyDown_arrows a index L) as [-> _].
    rewrite IH by (now rewrite (listRendered_index _ _ _ (activeIndex a)); destruct a).
    now rewrite Nat.iter_succ_r.
Qed.

Lemma arrows_up_run (n : nat) :
  forall (a : App) (index : nat),
    listRendered a = true ->
    run a (repeat (ItemKeyDown ArrowUp index) n) =
      mkApp (hook a) (isOpen a) (Nat.iter n onUpInList (activeIndex a)).
Proof.
  induction n as [|n IH]; intros a index L.
  - now destruct a.
  - change (run a (repeat (ItemKeyDown ArrowUp index) (S n)))
      with (run (step a (ItemKeyDown ArrowUp index))
                (repeat (ItemKeyDown ArrowUp index) n)).
    destruct (itemKeyDown_arrows a index L) as [_ ->].
    rewrite IH by (now rewrite (listRendered_index _ _ _ (activeIndex a)); destruct a).
    now rewrite Nat.iter_succ_r.
Qed.

(* ================================================================== *)
(** * Escape *)

(** C3, as the code has it. Escape is bound to the clear handler, in the
    input and in the list alike: it closes the dropdown ([isOpen] false,
    [activeIndex] -1) and resets the search state to its initial value,
    so afterwards the query is the empty string and there are no
    results, whatever they were. *)
Theorem escape_closes_and_clears (a : App) (index : nat) :
  let a' := onEscape a in
  isOpen a' = false /\ activeIndex a' = (-1)%Z /\ dropdown a' = None /\
  state (hook a') = initialState /\
  query (state (hook a')) = [] /\ results (state (hook a')) = [] /\
  (listRendered a = true -> step a (ItemKeyDown Escape index) = a').
Proof.
  intros a'; repeat split.
  intros L; simpl; now rewrite L.
Qed.

Lemma escape_witness :
  let a := run initialApp
             [Change (js "Emma"); Elapse 400;
              Settle 0 (Fulfilled [bookA; bookB; bookC]);
              InputKeyDown ArrowDown; ItemKeyDown ArrowDown 0] in
  listRendered a = true /\ step a (ItemKeyDown Escape 1) = onEscape a.
Proof.
  intros a; split; [reflexivity|].
  apply (escape_closes_and_clears a 1); reflexivity.
Defined.

(** C3 as stated fails. Three results, the second one active: after
    Escape, from the input or from the list, the query and the results
    are gone. *)
Lemma escape_counterexample :
  let a := run initialApp
             [Change (js "Emma"); Elapse 400;
              Settle 0 (Fulfilled [bookA; bookB; bookC]);
              InputKeyDown ArrowDown; ItemKeyDown ArrowDown 0] in
  activeIndex a = 1%Z /\
  query (state (hook a)) = js "Emma" /\
  results (state (hook a)) = [bookA; bookB; bookC] /\
  query (state (hook (step a (InputKeyDown Escape)))) <> query (state (hook a)) /\
  results (state (hook (step a (InputKeyDown Escape)))) <> results (state (hook a)) /\
  query (state (hook (step a (ItemKeyDown Escape 1)))) <> query (state (hook a)) /\
  results (state (hook (step a (ItemKeyDown Escape 1)))) <> results (state (hook a)).
Proof.
  intros a.
  repeat (split; [first [reflexivity | discriminate]|]); discriminate.
Qed.

(* ================================================================== *)
(** * Selecting a result *)

(** C10. Committing a selection, by a click or by Enter on a result whose
    title has text in it: the dropdown closes and no index is active; the
    query becomes the title; exactly one timeout is pending, due after
    the delay of 400ms and carrying the trimmed title; nothing is fetched
    at once, and when the delay has passed [fetchFn] is called with the
    trimmed title and the status is loading. *)
Theorem select_schedules_fetch (a : App) (index : nat) (r : Result) :
  reachable a ->
  listRendered a = true ->
  nth_error (results (state (hook a))) index = Some r ->
  whitespaceOnly (title r) = false ->
  let a' := step a (ItemClick index) in
  step a (ItemKeyDown Enter index) = a' /\
  isOpen a' = false /\ activeIndex a' = (-1)%Z /\ dropdown a' = None /\
  query (state (hook a')) = title r /\
  timeouts (hook a') =
    [mkTimeout (nextHandle (hook a)) (clock (hook a) + appDelay) (trim (title r))] /\
  fetchCalls (hook a') = fetchCalls (hook a) /\
  fetchCalls (hook (step a' (Elapse appDelay))) =
    fetchCalls (hook a) ++ [trim (title r)] /\
  status (state (hook (step a' (Elapse appDelay)))) = Loading.
Proof.
  intros Hr L N W a'.
  assert (E : a' = handleSelect r a)
    by (unfold a'; simpl; rewrite L; unfold itemClick; now rewrite N).
  split; [simpl; now rewrite L, N|].
  rewrite E; unfold handleSelect at 1 2 3; cbn [isOpen activeIndex].
  split; [reflexivity|]. split; [reflexivity|]. split; [reflexivity|].
  pose proof (timerInv_reachable appDelay (hook a) (reachable_hook a Hr)) as I.
  destruct (search_text_effect appDelay (title r) (hook a) I W)
    as (S & T & _ & K & _ & F).
  cbn [step hook handleSelect].
  split; [now rewrite S|]. split; [exact T|]. split; [exact F|].
  destruct (elapse_fires appDelay (search appDelay (title r) (hook a)) _ T)
    as (S' & _ & _ & _ & F' & _); [simpl; rewrite K; lia|].
  split; [rewrite F', F; reflexivity | now rewrite S'].
Qed.

Lemma select_schedules_fetch_witness :
  let a := run initialApp
             [Change (js "Em"); Elapse 400;
              Settle 0 (Fulfilled [bookA; bookB]); InputKeyDown ArrowDown] in
  let a' := step a (ItemClick 0) in
  listRendered a = true /\
  isOpen a' = false /\
  fetchCalls (hook a') = [js "Em"] /\
  fetchCalls (hook (step a' (Elapse appDelay))) = [js "Em"; js "Emma"].
Proof.
  intros a a'.
  assert (Hr : reachable a) by (eexists; reflexivity).
  destruct (select_schedules_fetch a 0 bookA Hr eq_refl eq_refl eq_refl)
    as (_ & O & _ & _ & _ & _ & F & F' & _).
  split; [reflexivity|]. split; [exact O|]. split; [exact F | exact F'].
Defined.

(* ================================================================== *)
(** * The active index *)

Lemma inRange_reset (h : Hook) (o : bool) : inRange (mkApp h o (-1)).
Proof. unfold inRange, lastIndex; simpl; lia. Qed.

(** Deciding [inRange] of a concrete state by evaluation. *)
Ltac range_compute :=
  unfold inRange, lastIndex; rewrite <- !Z.leb_le; vm_compute;
  intuition discriminate.

Ltac kept_or_reset :=
  match goal with
  | |- inRange (mkApp _ _ (-1)) => apply inRange_reset
  | H : inRange ?a |- inRange ?a => exact H
  end.

(** The handlers of the user's events keep the index within the list. *)
Lemma inRange_user_step (a : App) (e : Event) :
  isUserEvent e = true -> inRange a -> inRange (step a e).
Proof.
  intros U R; destruct e as [v|k| |i|k i|inside|dt|f o]; try discriminate;
    cbn [step].
  - apply inRange_reset.
  - destruct k; cbn [inputKeyDown]; try kept_or_reset.
    + unfold handleArrowDown.
      destruct (Nat.ltb_spec 0 (length (results (state (hook a))))); [|exact R].
      unfold inRange, lastIndex; cbn [activeIndex hook]; lia.
    + apply inRange_reset.
  - destruct (clearButtonRendered a); [apply inRange_reset | exact R].
  - destruct (listRendered a); [|exact R]; unfold itemClick.
    destruct (nth_error _ i); [apply inRange_reset | exact R].
  - destruct (listRendered a) eqn:L; [|exact R].
    apply listRendered_nonempty in L.
    destruct k; cbn [itemKeyDown]; try kept_or_reset.
    + unfold inRange, lastIndex, onDownInList in *; cbn [activeIndex hook]; lia.
    + unfold inRange, lastIndex, onUpInList in *; cbn [activeIndex hook]; lia.
    + destruct (nth_error _ i); [apply inRange_reset | exact R].
    + apply inRange_reset.
  - destruct inside; [exact R | apply inRange_reset].
Qed.

Lemma activeIndex_low_step (a : App) (e : Event) :
  (-1 <= activeIndex a)%Z -> (-1 <= activeIndex (step a e))%Z.
Proof.
  intros R; destruct e as [v|k| |i|k i|inside|dt|f o]; cbn [step]; simpl; try lia.
  - destruct k; simpl; try lia.
    unfold handleArrowDown; destruct (_ <? _); simpl; lia.
  - destruct (clearButtonRendered a); simpl; lia.
  - destruct (listRendered a); [|exact R]; unfold itemClick.
    destruct (nth_error _ i); simpl; lia.
  - destruct (listRendered a); [|exact R].
    destruct k; simpl; unfold onDownInList, onUpInList; try lia.
    destruct (nth_error _ i); simpl; lia.
  - destruct inside; [exact R | simpl; lia].
Qed.

Lemma activeIndex_low (es : list Event) : (-1 <= activeIndex (run initialApp es))%Z.
Proof.
  induction es as [|e es IH] using rev_ind; [simpl; lia|].
  rewrite run_snoc; now apply activeIndex_low_step.
Qed.

(** A user's event that changes the results resets the index. *)
Lemma results_changed_resets (a : App) (e : Event) :
  isUserEvent e = true ->
  results (state (hook (step a e))) <> results (state (hook a)) ->
  activeIndex (step a e) = (-1)%Z.
Proof.
  intros U; destruct e as [v|k| |i|k i|inside|dt|f o]; try discriminate;
    cbn [step]; intros C.
  - reflexivity.
  - destruct k; try reflexivity; try (now elim C).
    revert C; cbn [inputKeyDown]; unfold handleArrowDown.
    destruct (_ <? _); intros C; now elim C.
  - destruct (clearButtonRendered a); [reflexivity | now elim C].
  - revert C; destruct (listRendered a); [|intros C; now elim C].
    unfold itemClick; destruct (nth_error _ i); [reflexivity | intros C; now elim C].
  - revert C; destruct (listRendered a); [|intros C; now elim C].
    destruct k; cbn [itemKeyDown]; try reflexivity; try (intros C; now elim C).
    destruct (nth_error _ i); [reflexivity | intros C; now elim C].
  - revert C; destruct inside; simpl; intros C; [now elim C | reflexivity].
Qed.

(** C4, as the code has it. After every sequence of events the active
    index is at least -1. Every event of the user (typing, keys, clicks)
    keeps it within [-1, results.length - 1], and resets it to -1 when it
    changes the results. The timer firing and a fetch settling leave the
    index as it is, whatever they do to the results. *)
Theorem activeIndex_bounds (es : list Event) (e : Event) :
  let a := run initialApp es in
  (-1 <= activeIndex a)%Z /\
  (isUserEvent e = true -> inRange a -> inRange (step a e)) /\
  (isUserEvent e = true ->
   results (state (hook (step a e))) <> results (state (hook a)) ->
   activeIndex (step a e) = (-1)%Z) /\
  (isUserEvent e = false -> activeIndex (step a e) = activeIndex a).
Proof.
  intros a; split; [apply activeIndex_low|].
  split; [apply inRange_user_step|].
  split; [apply results_changed_resets|].
  destruct e; try discriminate; reflexivity.
Qed.

Lemma activeIndex_bounds_witness :
  let es := [Change (js "Emma"); Elapse 400;
             Settle 0 (Fulfilled [bookA; bookB; bookC]);
             InputKeyDown ArrowDown; ItemKeyDown ArrowDown 0;
             ItemKeyDown ArrowDown 1] in
  let a := run initialApp es in
  inRange a /\ inRange (step a (ItemKeyDown ArrowDown 2)) /\
  activeIndex (step a (Change (js ""))) = (-1)%Z /\
  activeIndex (step a (Elapse 400)) = 2%Z.
Proof.
  intros es a.
  assert (R : inRange a) by range_compute.
  destruct (activeIndex_bounds es (ItemKeyDown ArrowDown 2)) as (_ & K & _).
  destruct (activeIndex_bounds es (Change (js ""))) as (_ & _ & C & _).
  destruct (activeIndex_bounds es (Elapse 400)) as (_ & _ & _ & T).
  split; [exact R|]. split; [exact (K eq_refl R)|]. split.
  - apply C; [reflexivity | discriminate].
  - exact (eq_trans (T eq_refl) eq_refl).
Defined.

(** C4 as stated fails. Three results are shown; the user types on, moves
    down to the third result; then the timeout fires and the new fetch
    brings one result only, or fails: the index is still 2. *)
Lemma activeIndex_counterexample :
  let es := [Change (js "Em"); Elapse 400;
             Settle 0 (Fulfilled [bookA; bookB; bookC]);
             Change (js "Emm"); InputKeyDown ArrowDown;
             ItemKeyDown ArrowDown 0; ItemKeyDown ArrowDown 1;
             Elapse 400] in
  let a := run initialApp (es ++ [Settle 1 (Fulfilled [bookA])]) in
  let b := run initialApp (es ++ [Settle 1 (Rejected (js "Failed to fetch"))]) in
  activeIndex a = 2%Z /\ results (state (hook a)) = [bookA] /\ ~ inRange a /\
  activeIndex b = 2%Z /\ results (state (hook b)) = [] /\ ~ inRange b.
Proof.
  intros es a b.
  repeat (split; [first [reflexivity | range_compute]|]).
  range_compute.
Qed.

(* ================================================================== *)
(** * More about the hook *)

Section HookLife.

Variable delay : nat.

Lemma query_timeouts (due : list Timeout) :
  forall h, query (state (fold_left onTimeout due h)) = query (state h).
Proof.
  induction due as [|t due IH]; intros h; simpl; [reflexivity|].
  now rewrite IH.
Qed.

Lemma query_hstep (h : Hook) (e : HookEvent) :
  query (state (hstep delay h e)) = queryAfter (query (state h)) e.
Proof.
  destruct e as [raw| |dt|f o]; cbn [hstep queryAfter].
  - rewrite state_search; now destruct (whitespaceOnly raw).
  - reflexivity.
  - unfold elapse; now rewrite query_timeouts.
  - unfold settle; destruct (awaited f h); [|reflexivity]; now destruct o.
Qed.

(** X1. The query field follows the user's submissions and nothing else: it
    is the text of the last submission as typed, or the empty string if
    that submission was blank or [clear] came after it. Timeouts firing
    and fetches settling, in whatever order, never change it. *)
Theorem query_follows_input (es : list HookEvent) :
  query (state (hrun delay mount es)) = typedQuery es.
Proof.
  unfold typedQuery.
  induction es as [|e es IH] using rev_ind; [reflexivity|].
  rewrite hrun_snoc, query_hstep, IH; unfold hrun.
  now rewrite fold_left_app.
Qed.

(** X2. While the status is loading, a fetch is in flight: the spinner never
    shows without a request that can still settle. *)
Theorem loading_has_fetch (h : Hook) :
  hreachable delay h -> status (state h) = Loading -> inflight h <> [].
Proof.
  intros [es ->]; induction es as [|e es IH] using rev_ind; [discriminate|].
  rewrite hrun_snoc.
  set (h := hrun delay mount es) in *.
  assert (I : timerInv h) by (apply timerInv_hrun, timerInv_mount).
  destruct e as [raw| |dt|f o]; cbn [hstep].
  - destruct (whitespaceOnly raw) eqn:W.
    + destruct (search_blank_effect delay raw h I W) as (S & _); rewrite S; discriminate.
    + destruct (search_text_effect delay raw h I W) as (S & _ & _ & _ & F & _).
      rewrite S, F; exact IH.
  - discriminate.
  - unfold timerInv in I.
    destruct (timeouts h) as [|t [|u r]] eqn:T; [| |contradiction].
    + destruct (elapse_idle dt h T) as (S & _ & _ & F & _); now rewrite S, F.
    + destruct (Nat.le_gt_cases (due t) (clock h + dt)) as [D|D].
      * destruct (elapse_fires dt h t T D) as (_ & _ & _ & F & _).
        rewrite F; intros _ N; now apply app_eq_nil in N.
      * destruct (elapse_short dt h t T D) as (S & _ & _ & F & _); now rewrite S, F.
  - unfold settle; destruct (awaited f h); [|exact IH].
    destruct o; discriminate.
Qed.


Lemma textSubmissions_snoc (es : list HookEvent) (e : HookEvent) :
  textSubmissions (es ++ [e]) =
  textSubmissions es +
  match e with
  | HSearch rawQuery => if whitespaceOnly rawQuery then 0 else 1
  | _ => 0
  end.
Proof.
  unfold textSubmissions; rewrite filter_app, length_app; f_equal.
  destruct e as [raw| | |]; simpl; auto; now destruct (whitespaceOnly raw).
Qed.

(** X3. Debouncing never multiplies requests: the fetches issued so far,
    together with the one still pending, are at most as many as the
    submissions with text in them. *)
Theorem fetches_bounded_by_submissions (es : list HookEvent) :
  length (fetchCalls (hrun delay mount es)) + length (timeouts (hrun delay mount es))
  <= textSubmissions es.
Proof.
  induction es as [|e es IH] using rev_ind; [simpl; lia|].
  rewrite hrun_snoc, textSubmissions_snoc.
  set (h := hrun delay mount es) in *.
  assert (I : timerInv h) by (apply timerInv_hrun, timerInv_mount).
  destruct e as [raw| |dt|f o]; cbn [hstep].
  - destruct (whitespaceOnly raw) eqn:W.
    + destruct (search_blank_effect delay raw h I W) as (_ & T & _ & _ & L).
      rewrite T, L; simpl; lia.
    + destruct (search_text_effect delay raw h I W) as (_ & T & _ & _ & _ & L).
      rewrite T, L; simpl; lia.
  - destruct (clear_effect h I) as (_ & T & _ & _ & L); rewrite T, L; simpl; lia.
  - unfold timerInv in I.
    destruct (timeouts h) as [|t [|u r]] eqn:T; [| |contradiction].
    + destruct (elapse_idle dt h T) as (_ & T' & _ & _ & L & _).
      rewrite T', L; simpl in *; lia.
    + destruct (Nat.le_gt_cases (due t) (clock h + dt)) as [D|D].
      * destruct (elapse_fires dt h t T D) as (_ & T' & _ & _ & L & _).
        rewrite T', L, length_app; simpl in *; lia.
      * destruct (elapse_short dt h t T D) as (_ & T' & _ & _ & L & _).
        rewrite T', L; simpl in *; lia.
  - destruct (settle_frame f o h) as (T & _ & _ & L); rewrite T, L; lia.
Qed.

Lemma pending_due_hstep (h : Hook) (e : HookEvent) :
  timerInv h ->
  (forall t, In t (timeouts h) -> clock h <= due t <= clock h + delay) ->
  forall t, In t (timeouts (hstep delay h e)) ->
            clock (hstep delay h e) <= due t <= clock (hstep delay h e) + delay.
Proof.
  intros I B; destruct e as [raw| |dt|f o]; cbn [hstep].
  - destruct (whitespaceOnly raw) eqn:W.
    + destruct (search_blank_effect delay raw h I W) as (_ & T & _).
      rewrite T; intros t [].
    + destruct (search_text_effect delay raw h I W) as (_ & T & _ & K & _).
      rewrite T, K; intros t [<-|[]]; simpl; lia.
  - destruct (clear_effect h I) as (_ & T & _); rewrite T; intros t [].
  - unfold timerInv in I.
    destruct (timeouts h) as [|t [|u r]] eqn:T; [| |contradiction].
    + destruct (elapse_idle dt h T) as (_ & T' & _); rewrite T'; intros t [].
    + destruct (Nat.le_gt_cases (due t) (clock h + dt)) as [D|D].
      * destruct (elapse_fires dt h t T D) as (_ & T' & _); rewrite T'; intros x [].
      * destruct (elapse_short dt h t T D) as (_ & T' & K & _).
        rewrite T', K; intros x [<-|[]].
        specialize (B t (or_introl eq_refl)); lia.
  - destruct (settle_frame f o h) as (T & _ & K & _); rewrite T, K; exact B.
Qed.

(** X4. No fetch waits longer than the delay: a pending timeout is due no
    later than one delay from now, so after a quiet period of one delay
    nothing is pending any more. *)
Theorem pending_fires_within_delay (h : Hook) :
  hreachable delay h ->
  (forall t, In t (timeouts h) -> clock h <= due t <= clock h + delay) /\
  timeouts (elapse delay h) = [].
Proof.
  intros Hr.
  assert (B : forall t, In t (timeouts h) -> clock h <= due t <= clock h + delay).
  { destruct Hr as [es ->]; induction es as [|e es IH] using rev_ind.
    - intros t [].
    - rewrite hrun_snoc; apply pending_due_hstep; [|exact IH].
      apply timerInv_hrun, timerInv_mount. }
  split; [exact B|].
  pose proof (timerInv_reachable delay h Hr) as I; unfold timerInv in I.
  destruct (timeouts h) as [|t [|u r]] eqn:T; [| |contradiction].
  - now destruct (elapse_idle delay h T) as (_ & T' & _).
  - destruct (elapse_fires delay h t T) as (_ & T' & _); [|exact T'].
    apply B; now left.
Qed.


End HookLife.

Lemma loading_has_fetch_witness :
  let h := hrun 400 mount [HSearch (js "Emma"); HElapse 400; HSearch (js "Emma W")] in
  status (state h) = Loading /\ inflight h <> [].
Proof.
  intros h; split; [reflexivity|].
  apply (loading_has_fetch 400 h); [eexists; reflexivity | reflexivity].
Defined.

Lemma pending_fires_witness :
  let h := hrun 400 mount [HSearch (js "Emma"); HElapse 399] in
  timeouts h <> [] /\ timeouts (elapse 400 h) = [].
Proof.
  intros h; split; [discriminate|].
  apply (pending_fires_within_delay 400 h); eexists; reflexivity.
Defined.

(* ================================================================== *)
(** * Clearing, unmounting, dismissing *)

Lemma filter_twice {A : Type} (p : A -> bool) (l : list A) :
  filter p (filter p l) = filter p l.
Proof.
  induction l as [|x l IH]; simpl; [reflexivity|].
  destruct (p x) eqn:E; simpl; [rewrite E, IH|]; auto.
Qed.

(** X5. Submitting blank text is [clear] under another name: the two leave
    the hook in the very same state, timers and fetches in flight
    included, and doing either a second time changes nothing. *)
Theorem blank_submit_is_clear (delay : nat) (rawQuery : jsstring) (h : Hook) :
  whitespaceOnly rawQuery = true ->
  search delay rawQuery h = clear h /\
  clear (clear h) = clear h /\
  search delay rawQuery (search delay rawQuery h) = search delay rawQuery h.
Proof.
  intros W.
  assert (E : forall k, search delay rawQuery k = clear k).
  { intros k; rewrite (search_blank delay rawQuery k W).
    unfold clear, dispatch, clearTimeout; simpl.
    destruct (debounceTimer k) eqn:D; simpl; rewrite ?D; reflexivity. }
  assert (C : clear (clear h) = clear h).
  { unfold clear, dispatch, clearTimeout; simpl.
    destruct (debounceTimer h) eqn:D; simpl; rewrite ?D; simpl;
      [now rewrite filter_twice | reflexivity]. }
  split; [apply E|]. split; [exact C|].
  now rewrite !E.
Qed.

Lemma blank_submit_is_clear_witness :
  let h := hrun 400 mount [HSearch (js "Emma"); HElapse 400; HSearch (js "Emma W")] in
  search 400 (js " ") h = clear h.
Proof.
  intros h; apply (blank_submit_is_clear 400 (js " ") h); reflexivity.
Defined.



Lemma isOpen_step_closed (a : App) (e : Event) :
  isChange e = false -> isOpen a = false -> isOpen (step a e) = false.
Proof.
  intros N C; destruct e as [v|k| |i|k i|inside|dt|f o]; try discriminate;
    cbn [step]; auto.
  - destruct k; cbn [inputKeyDown]; auto.
    unfold handleArrowDown; now destruct (_ <? _).
  - now destruct (clearButtonRendered a).
  - destruct (listRendered a); auto; unfold itemClick; now destruct (nth_error _ i).
  - destruct (listRendered a); auto; destruct k; cbn [itemKeyDown]; auto.
    now destruct (nth_error _ i).
  - now destruct inside.
Qed.

(** X7. Only typing opens the dropdown. Once it is closed (by a selection,
    Escape, the clear button or a click outside), no other event opens
    it again: results that arrive later, the timer, keys and clicks all
    leave it hidden. *)
Theorem dropdown_stays_closed (es : list Event) (a : App) :
  isOpen a = false ->
  Forall (fun e => isChange e = false) es ->
  isOpen (run a es) = false /\ dropdown (run a es) = None.
Proof.
  intros C N.
  assert (O : isOpen (run a es) = false).
  { revert a C; induction N as [|e es Ne _ IH]; intros a C; [exact C|].
    apply IH, isOpen_step_closed; assumption. }
  split; [exact O|].
  unfold dropdown, showDropdown; now rewrite O.
Qed.

Lemma dropdown_stays_closed_witness :
  let a := run initialApp
             [Change (js "Em"); Elapse 400; Settle 0 (Fulfilled [bookA; bookB]);
              ItemClick 0] in
  let es := [Elapse 400; Settle 1 (Fulfilled [bookA]); InputKeyDown ArrowDown] in
  results (state (hook (run a es))) = [bookA] /\ dropdown (run a es) = None.
Proof.
  intros a es; split; [reflexivity|].
  apply (dropdown_stays_closed es a); [reflexivity | repeat constructor].
Defined.

(** X8. A click outside hides the dropdown but cancels nothing: the fetch of
    the text just typed is still issued when the delay has passed. *)
Theorem outside_click_keeps_fetch (a : App) (rawQuery : jsstring) :
  reachable a ->
  whitespaceOnly rawQuery = false ->
  let a' := run a [Change rawQuery; MouseDown false; Elapse appDelay] in
  fetchCalls (hook a') = fetchCalls (hook a) ++ [trim rawQuery] /\
  status (state (hook a')) = Loading /\
  query (state (hook a')) = rawQuery /\
  dropdown a' = None.
Proof.
  intros Hr W a'.
  pose proof (timerInv_reachable appDelay (hook a) (reachable_hook a Hr)) as I.
  destruct (search_text_effect appDelay rawQuery (hook a) I W)
    as (S & T & _ & K & _ & F).
  destruct (elapse_fires appDelay (search appDelay rawQuery (hook a)) _ T)
    as (S' & _ & _ & _ & F' & _); [simpl; rewrite K; lia|].
  unfold a'; cbn [run fold_left step handleChange handleClickOutside negb hook].
  split; [rewrite F', F; reflexivity|].
  split; [now rewrite S'|].
  split; [now rewrite S', S | reflexivity].
Qed.

Lemma outside_click_keeps_fetch_witness :
  let a' := run initialApp [Change (js " Emma"); MouseDown false; Elapse appDelay] in
  fetchCalls (hook a') = [js "Emma"] /\ dropdown a' = None.
Proof.
  intros a'.
  destruct (outside_click_keeps_fetch initialApp (js " Emma")) as (F & _ & _ & D).
  - now exists [].
  - reflexivity.
  - split; [exact F | exact D].
Defined.

(** X9. Escape before the delay has passed cancels the request of the
    text just typed: nothing is fetched for it however
    long one waits. *)
Theorem escape_cancels_pending (a : App) (value : jsstring) (dt : nat) :
  reachable a ->
  let a' := run a [Change value; InputKeyDown Escape; Elapse dt] in
  fetchCalls (hook a') = fetchCalls (hook a) /\
  state (hook a') = initialState /\
  timeouts (hook a') = [].
Proof.
  intros Hr a'.
  assert (Hc : reachable (step a (Change value))).
  { destruct Hr as [es ->]; exists (es ++ [Change value]); now rewrite run_snoc. }
  pose proof (timerInv_reachable appDelay _ (reachable_hook _ Hc)) as I.
  destruct (clear_effect _ I) as (S & T & _ & _ & L).
  destruct (elapse_idle dt _ T) as (S' & T' & _ & _ & L' & _).
  unfold a'; cbn [run fold_left]; cbn [step inputKeyDown handleClear hook].
  change (step a (Change value)) with (handleChange value a) in *.
  split; [|split; [congruence | exact T']].
  rewrite L', L; cbn [handleChange hook].
  pose proof (timerInv_reachable appDelay (hook a) (reachable_hook a Hr)) as I0.
  destruct (whitespaceOnly value) eqn:W.
  - now destruct (search_blank_effect appDelay value (hook a) I0 W) as (_ & _ & _ & _ & F).
  - now destruct (search_text_effect appDelay value (hook a) I0 W) as (_ & _ & _ & _ & _ & F).
Qed.

Lemma escape_cancels_pending_witness :
  let a := run initialApp [Change (js "Em"); Elapse 400] in
  let a' := run a [Change (js "Emma"); InputKeyDown Escape; Elapse 5000] in
  fetchCalls (hook a') = [js "Em"].
Proof.
  intros a a'.
  apply (escape_cancels_pending a (js "Emma") 5000); eexists; reflexivity.
Defined.

(* ================================================================== *)
(** * The data source *)

Section SearchBooksFacts.

Variable numberToString : Z -> jsstring.

(** X11. A response that is ok yields one result for each document, in the
    order of the documents, with the key as id and the title as it is;
    the author falls back to 'Unknown Author' when the document names
    none, and there is a cover address exactly when the document has a
    cover number other than 0. *)
Theorem searchBooks_normalizes (response : OpenLibrary.Response) :
  OpenLibrary.ok response = true ->
  exists rs,
    searchBooks numberToString response = Fulfilled rs /\
    length rs = length (OpenLibrary.docs response) /\
    forall i book, nth_error (OpenLibrary.docs response) i = Some book ->
      exists r, nth_error rs i = Some r /\
        id r = OpenLibrary.key book /\
        title r = OpenLibrary.title book /\
        (OpenLibrary.author_name book = None \/ OpenLibrary.author_name book = Some [] ->
         author r = js "Unknown Author") /\
        (coverUrl r = None <->
         OpenLibrary.cover_i book = None \/ OpenLibrary.cover_i book = Some 0%Z).
Proof.
  intros K; exists (map (normalize numberToString) (OpenLibrary.docs response)).
  split; [unfold searchBooks; now rewrite K|].
  split; [apply length_map|].
  intros i book N; exists (normalize numberToString book).
  split; [now apply map_nth_error|].
  split; [reflexivity|]. split; [reflexivity|]. split.
  - intros [A|A]; unfold normalize; simpl; now rewrite A.
  - unfold normalize; simpl.
    destruct (OpenLibrary.cover_i book) as [c|]; [|tauto].
    destruct (Z.eqb_spec c 0) as [->|Ne]; [tauto|].
    split; [discriminate|].
    intros [C|C]; [discriminate | congruence].
Qed.

(** X12. What the dropdown shows once the answer of the service is in, while
    it is open on a query with text in it: the failure message for a
    response that is not ok, with the results emptied and the error
    text 'API Error: <status> <statusText>' in the state; 'No results'
    for an answer without documents; the list of normalized results
    otherwise. *)
Theorem response_display (a : App) (f : nat) (response : OpenLibrary.Response) :
  awaited f (hook a) = true ->
  showDropdown a = true ->
  let a' := step a (Settle f (searchBooks numberToString response)) in
  dropdown a' =
    Some (if OpenLibrary.ok response then
            match OpenLibrary.docs response with
            | [] => NoResults (query (state (hook a)))
            | _ :: _ =>
                ResultList (map (normalize numberToString) (OpenLibrary.docs response))
                           (query (state (hook a))) (activeIndex a)
            end
          else FetchFailed) /\
  (OpenLibrary.ok response = false ->
   results (state (hook a')) = [] /\
   error (state (hook a')) =
     Some (js "API Error: " ++ numberToString (OpenLibrary.status response)
           ++ js " " ++ OpenLibrary.statusText response)).
Proof.
  intros A D a'; unfold a'; cbn [step hook].
  unfold dropdown, showDropdown in *; cbn [isOpen hook activeIndex].
  rewrite (settle_awaited f _ (hook a) A).
  unfold searchBooks.
  destruct (OpenLibrary.ok response); cbn [negb settlement searchReducer query status results error].
  - rewrite D; split; [|discriminate].
    now destruct (OpenLibrary.docs response).
  - rewrite D; split; [reflexivity|]. intros _; split; reflexivity.
Qed.

End SearchBooksFacts.

Lemma searchBooks_normalizes_witness :
  let book := OpenLibrary.mkDoc (js "/works/OL1W") (js "Emma") None (Some 1815%Z) (Some 0%Z) in
  let response := OpenLibrary.mkResponse true 200 (js "OK") [book] in
  exists rs, searchBooks (fun _ => js "n") response = Fulfilled rs /\ length rs = 1.
Proof.
  intros book response.
  destruct (searchBooks_normalizes (fun _ => js "n") response eq_refl) as (rs & E & L & _).
  exists rs; split; [exact E | exact L].
Defined.

Lemma response_display_witness :
  let a := run initialApp [Change (js "Emma"); Elapse 400] in
  let response := OpenLibrary.mkResponse false 503 (js "Service Unavailable") [] in
  dropdown (step a (Settle 0 (searchBooks (fun _ => js "503") response))) = Some FetchFailed.
Proof.
  intros a response.
  apply (response_display (fun _ => js "503") a 0 response); reflexivity.
Defined.

(* ================================================================== *)
(** * Highlighting *)

Lemma backslash_is_syntax (c : N) : (c =? 92)%N = true -> isSyntaxCharacter c = true.
Proof. intros E; apply N.eqb_eq in E; now subst. Qed.

(** X13. Escaping turns every query into a pattern without operators: read as
    a pattern, the escaped query matches the query itself, character
    for character, whatever the user typed. *)
Theorem escape_reads_back (query : jsstring) :
  literalOf (escapeRegExp query) = Some query.
Proof.
  induction query as [|c q IH]; [reflexivity|].
  unfold escapeRegExp in *; cbn [flat_map].
  destruct (isSyntaxCharacter c) eqn:S; cbn [app literalOf].
  - rewrite N.eqb_refl, S, IH; reflexivity.
  - destruct (c =? 92)%N eqn:B.
    + apply backslash_is_syntax in B; congruence.
    + rewrite S, IH; reflexivity.
Qed.

Section HighlightFacts.

Variable canonicalize : N -> N.


Lemma matchesAt_iff (literal : jsstring) :
  forall s, matchesAt canonicalize literal s = true <->
            length literal <= length s /\
            map canonicalize (firstn (length literal) s) = map canonicalize literal.
Proof.
  induction literal as [|p l IH]; intros s; simpl.
  - split; [intros _; split; [lia | reflexivity] | reflexivity].
  - destruct s as [|c s]; simpl.
    + split; [discriminate | intros [H _]; lia].
    + rewrite andb_true_iff, N.eqb_eq, IH; split.
      * intros (E & L & M); split; [lia | now rewrite E, M].
      * intros (L & M); injection M as E M; repeat split; auto; lia.
Qed.

Lemma matchesAt_app (literal s t : jsstring) :
  matchesAt canonicalize literal s = true -> matchesAt canonicalize literal (s ++ t) = true.
Proof.
  rewrite !matchesAt_iff; intros (L & M); split.
  - rewrite length_app; lia.
  - now rewrite firstn_app, (proj2 (Nat.sub_0_le _ _) L), firstn_O, app_nil_r.
Qed.

Lemma matchesAt_exact (literal s : jsstring) :
  matchesAt canonicalize literal s = true -> exactMatch canonicalize literal (firstn (length literal) s).
Proof.
  rewrite matchesAt_iff; intros (L & M); split; [|exact M].
  now apply firstn_length_le.
Qed.

Lemma exactMatch_matches (literal found : jsstring) :
  exactMatch canonicalize literal found -> matchesAt canonicalize literal found = true.
Proof.
  intros (L & M); apply matchesAt_iff; split; [lia|].
  now rewrite <- L, firstn_all.
Qed.

Lemma searchFrom_matchFree (literal : jsstring) :
  forall s, matchFree canonicalize literal s -> searchFrom canonicalize literal s = None.
Proof.
  induction s as [|c s IH]; intros F.
  - pose proof (F 0) as F0; simpl in *; now rewrite F0.
  - cbn [searchFrom]; rewrite (F 0 : matchesAt canonicalize literal (c :: s) = false).
    rewrite IH; [reflexivity|].
    intros j; exact (F (S j)).
Qed.

Lemma matchFree_skipn (literal s : jsstring) (k : nat) :
  matchFree canonicalize literal s -> matchFree canonicalize literal (skipn k s).
Proof. intros F j; rewrite skipn_skipn; apply F. Qed.

(** On a segment without a match the test fails wherever it starts, and
    leaves [lastIndex] at 0. *)
Lemma test_matchFree (literal s : jsstring) (lastIndex : nat) :
  matchFree canonicalize literal s -> test canonicalize literal lastIndex s = (false, 0).
Proof.
  intros F; unfold test.
  destruct (length s <? lastIndex); [reflexivity|].
  now rewrite (searchFrom_matchFree _ _ (matchFree_skipn _ _ lastIndex F)).
Qed.

(** On a match the test started at 0 succeeds. *)
Lemma test_exactMatch (literal found : jsstring) :
  exactMatch canonicalize literal found ->
  test canonicalize literal 0 found = (true, length literal).
Proof.
  intros E; unfold test; simpl.
  destruct found as [|c r]; simpl; now rewrite (exactMatch_matches _ _ E).
Qed.

Lemma markSegments_texts (literal : jsstring) (segments : list jsstring) :
  forall lastIndex, map fst (markSegments canonicalize literal lastIndex segments) = segments.
Proof.
  induction segments as [|s r IH]; intros li; simpl; [reflexivity|].
  destruct (test canonicalize literal li s) as [hl li']; simpl; now rewrite IH.
Qed.

Lemma markSegments_alternating (literal : jsstring) (n : nat) :
  forall segments lastIndex,
    length segments <= n -> alternating canonicalize literal segments ->
    markSegments canonicalize literal lastIndex segments = marked false segments.
Proof.
  induction n as [|n IH]; intros [|s [|found rest]] li L A; simpl in *;
    try contradiction; try lia.
  - now rewrite (test_matchFree _ _ li A).
  - destruct A as (F & E & A).
    rewrite (test_matchFree _ _ li F), (test_exactMatch _ _ E).
    rewrite (IH rest (length literal)); [reflexivity | lia | exact A].
Qed.

Lemma splitWalk_concat (literal : jsstring) :
  literal <> [] ->
  forall s skip seg, skip <= length s ->
    concat (splitWalk canonicalize literal skip seg s) = seg ++ skipn skip s.
Proof.
  intros Ne; induction s as [|c s IH]; intros k seg K; simpl in *.
  - replace k with 0 by lia; simpl; now rewrite app_nil_r.
  - destruct k as [|k]; [|apply IH; lia].
    destruct (matchesAt canonicalize literal (c :: s)) eqn:M.
    + apply matchesAt_iff in M; destruct M as (L & _); simpl in L.
      destruct literal as [|p l]; simpl in *.
      * now elim Ne.
      * rewrite (IH (length l - 0) []) by lia.
        rewrite Nat.sub_0_r; simpl.
        now rewrite <- (firstn_skipn (length l) s) at 3.
    + rewrite (IH 0 (seg ++ [c])) by lia; simpl; now rewrite <- app_assoc.
Qed.

Lemma splitWalk_alternating (literal : jsstring) :
  literal <> [] ->
  forall s skip seg,
    (skip = 0 -> forall j, j < length seg ->
                 matchesAt canonicalize literal (skipn j (seg ++ s)) = false) ->
    (0 < skip -> seg = [] /\ skip <= length s) ->
    alternating canonicalize literal (splitWalk canonicalize literal skip seg s).
Proof.
  intros Ne; induction s as [|c s IH]; intros k seg Zh P.
  - assert (k = 0) as -> by (destruct k; [reflexivity | destruct P; simpl in *; lia]).
    simpl; intros j; destruct (Nat.lt_ge_cases j (length seg)) as [J|J].
    + rewrite <- (app_nil_r seg) at 1; now apply Zh.
    + rewrite skipn_all2 by lia; now destruct literal.
  - destruct k as [|k]; cbn [splitWalk].
    + destruct (matchesAt canonicalize literal (c :: s)) eqn:M.
      * assert (F : matchFree canonicalize literal seg).
        { intros j; destruct (Nat.lt_ge_cases j (length seg)) as [J|J].
          - destruct (matchesAt canonicalize literal (skipn j seg)) eqn:E; [|reflexivity].
            apply (matchesAt_app _ _ (c :: s)) in E.
            rewrite <- (Zh eq_refl j J), skipn_app.
            replace (j - length seg) with 0 by lia; simpl; now rewrite E.
          - rewrite skipn_all2 by lia; now destruct literal. }
        pose proof (matchesAt_exact _ _ M) as E.
        apply matchesAt_iff in M; destruct M as (L & _); simpl in L.
        cbn [alternating].
        assert (A : alternating canonicalize literal (splitWalk canonicalize literal (length literal - 1) [] s)).
        { apply IH; [intros _ j J; simpl in J; lia|].
          intros _; split; [reflexivity | lia]. }
        destruct (splitWalk canonicalize literal (length literal - 1) [] s) eqn:W; [contradiction|].
        repeat split; try apply E; [exact F | exact A].
      * apply IH; [|intros H; lia].
        intros _ j J; rewrite length_app in J; simpl in J.
        rewrite <- app_assoc; simpl.
        destruct (Nat.eq_dec j (length seg)) as [->|Nj].
        -- rewrite skipn_app, skipn_all, Nat.sub_diag; exact M.
        -- apply Zh; [reflexivity | lia].
    + destruct P as (-> & K); [lia|]; simpl in K.
      apply IH; [intros _ j J; simpl in J; lia|].
      intros _; split; [reflexivity | lia].
Qed.

Lemma nonblank_nonempty (query : jsstring) : whitespaceOnly query = false -> query <> [].
Proof. intros W ->; discriminate. Qed.

Lemma highlightParts_text (text query : jsstring) :
  whitespaceOnly query = false ->
  highlightParts canonicalize text query = markSegments canonicalize query 0 (split canonicalize query text).
Proof.
  intros W; unfold highlightParts.
  now rewrite truthy_trim, W, escape_reads_back.
Qed.

(** X14. The parts put together give the text back: highlighting loses,
    doubles and reorders nothing, whatever the query. *)
Theorem highlight_keeps_text (text query : jsstring) :
  concat (map fst (highlightParts canonicalize text query)) = text.
Proof.
  destruct (whitespaceOnly query) eqn:W.
  - unfold highlightParts; rewrite truthy_trim, W; simpl; apply app_nil_r.
  - rewrite (highlightParts_text _ _ W), markSegments_texts.
    unfold split; rewrite splitWalk_concat;
      [reflexivity | now apply nonblank_nonempty | simpl; lia].
Qed.

(** X15. For a query with text in it the marks strictly alternate, from an
    unmarked part to an unmarked part: the segments come as text free of
    matches, a match, text free of matches, and so on, and the stateful
    test of the one global regex marks exactly the matches. *)
Theorem highlight_marks_alternate (text query : jsstring) :
  whitespaceOnly query = false ->
  alternating canonicalize query (split canonicalize query text) /\
  highlightParts canonicalize text query = marked false (split canonicalize query text).
Proof.
  intros W.
  assert (A : alternating canonicalize query (split canonicalize query text)).
  { apply splitWalk_alternating; [now apply nonblank_nonempty| |intros H; lia].
    intros _ j J; simpl in J; lia. }
  split; [exact A|].
  rewrite (highlightParts_text _ _ W).
  now apply (markSegments_alternating query (length (split canonicalize query text))).
Qed.

Lemma marked_alternating (literal : jsstring) (n : nat) :
  literal <> [] ->
  forall segments, length segments <= n -> alternating canonicalize literal segments ->
    forall part highlight, In (part, highlight) (marked false segments) ->
      if highlight then exactMatch canonicalize literal part else matchFree canonicalize literal part.
Proof.
  intros Ne; induction n as [|n IH]; intros [|s [|found rest]] L A part hl H;
    simpl in *; try contradiction; try lia.
  - destruct H as [[= <- <-]|[]]; exact A.
  - destruct A as (F & E & A).
    destruct H as [[= <- <-]|[[= <- <-]|H]]; [exact F | exact E |].
    apply (IH rest); [lia | exact A | exact H].
Qed.

(** X16. For a query with text in it: a part is highlighted exactly when it
    is a copy of the query as typed (untrimmed), equal to it up to the
    case folding of the [i] flag; and a part that is not highlighted
    contains no such copy anywhere. *)
Theorem highlight_exact (text query part : jsstring) (highlight : bool) :
  whitespaceOnly query = false ->
  In (part, highlight) (highlightParts canonicalize text query) ->
  (highlight = true <-> exactMatch canonicalize query part) /\
  (highlight = false -> matchFree canonicalize query part).
Proof.
  intros W H.
  destruct (highlight_marks_alternate text query W) as (A & E).
  rewrite E in H.
  pose proof (marked_alternating query (length (split canonicalize query text))
                (nonblank_nonempty _ W) _ (le_n _) A part highlight H) as P.
  destruct highlight; split; try tauto; try discriminate.
  split; [discriminate|].
  intros X; apply exactMatch_matches in X.
  now rewrite (P 0 : matchesAt canonicalize query part = false) in X.
Qed.

End HighlightFacts.

Lemma highlight_marks_alternate_witness :
  let fold := fun c : N => if ((97 <=? c) && (c <=? 122))%N then (c - 32)%N else c in
  highlightParts fold (js "Emma and emma") (js "emm") =
  marked false (split fold (js "emm") (js "Emma and emma")).
Proof.
  intros fold.
  apply (highlight_marks_alternate fold (js "Emma and emma") (js "emm")); reflexivity.
Defined.

Lemma highlight_exact_witness :
  let fold := fun c : N => if ((97 <=? c) && (c <=? 122))%N then (c - 32)%N else c in
  In (js "C++", true) (highlightParts fold (js "Learn C++ fast") (js "c++")) /\
  exactMatch fold (js "c++") (js "C++").
Proof.
  intros fold.
  assert (H : In (js "C++", true) (highlightParts fold (js "Learn C++ fast") (js "c++")))
    by (right; left; reflexivity).
  split; [exact H|].
  apply (highlight_exact fold (js "Learn C++ fast") (js "c++") (js "C++") true eq_refl H).
  reflexivity.
Defined.

(* ================================================================== *)
(** * One full round *)

Lemma nextFetch_search (delay : nat) (rawQuery : jsstring) (h : Hook) :
  nextFetch (search delay rawQuery h) = nextFetch h.
Proof.
  unfold search; destruct (negb (truthy (trim rawQuery))); simpl;
    now destruct (debounceTimer h).
Qed.

(** X10. From any state the hook can be in, an error state included: a
    submission with text in it, the delay, and the answer of the fetch
    it started. While the fetch is out the status is loading and the
    error is cleared; fulfilled, it gives status success with exactly
    the payload as results and no error; rejected, it gives status
    error with no results and the message. The query is the text as
    typed throughout. *)
Theorem submit_fetch_round (delay : nat) (h : Hook) (rawQuery : jsstring)
    (payload : list Result) (message : jsstring) :
  hreachable delay h ->
  whitespaceOnly rawQuery = false ->
  let waiting := elapse delay (search delay rawQuery h) in
  let f := nextFetch h in
  awaited f waiting = true /\
  status (state waiting) = Loading /\ error (state waiting) = None /\
  state (settle f (Fulfilled payload) waiting) =
    mkSearchState Success rawQuery payload None /\
  state (settle f (Rejected message) waiting) =
    mkSearchState Error rawQuery [] (Some message).
Proof.
  intros Hr W waiting f.
  pose proof (timerInv_reachable delay h Hr) as I.
  destruct (search_text_effect delay rawQuery h I W) as (S & T & _ & K & _).
  destruct (elapse_fires delay (search delay rawQuery h) _ T)
    as (S' & _ & _ & F & _); [simpl; rewrite K; lia|].
  fold waiting in S', F.
  assert (A : awaited f waiting = true).
  { unfold awaited; rewrite F, existsb_app, nextFetch_search; simpl.
    unfold f; now rewrite Nat.eqb_refl, orb_true_r. }
  split; [exact A|].
  rewrite !(settle_awaited f _ waiting A), S', S.
  repeat split.
Qed.

Lemma submit_fetch_round_witness :
  let h := hrun 400 mount
             [HSearch (js "Em"); HElapse 400; HSettle 0 (Rejected (js "Failed to fetch"))] in
  let waiting := elapse 400 (search 400 (js "Emma ") h) in
  status (state h) = Error /\
  state (settle 1 (Fulfilled [bookA]) waiting) =
    mkSearchState Success (js "Emma ") [bookA] None.
Proof.
  intros h waiting.
  assert (Hr : hreachable 400 h) by (eexists; reflexivity).
  destruct (submit_fetch_round 400 h (js "Emma ") [bookA] [] Hr eq_refl)
    as (_ & _ & _ & S & _).
  split; [reflexivity | exact S].
Defined.
